(** * repertoire-patcher: the repertoire index and the frontier search

    A shallow embedding of [src/repertoire_patcher.py] and the properties
    its design document states about it.

    - Python objects that are mutated in place ([chess.Board]) live in a
      heap of board states; a [PositionNode] holds a reference to its board.
    - Exceptions are an explicit result type; the two [while] loops take
      fuel.
    - [float] arithmetic is an interface ([Arith]) with two instances:
      IEEE binary64 (what the program runs on) and exact rationals (what the
      design document reasons with).
    - python-chess and the Lichess explorer are parameters. *)

From Stdlib Require Import ZArith QArith Qcanon Floats Uint63 Ascii Lia.
From stdpp Require Import base option gmap strings numbers list.

Set Default Proof Using "Type".
Local Open Scope Z_scope.

(** ** Arithmetic on probabilities *)

(** The operations the program applies to [probability] values: the [int]
    literals [0] and [1], [*], [>] and the true division of two game counts.
    [p_add] is not used by the program; the conservation property sums
    probabilities with it. *)
Class Arith (P : Type) := {
  p_zero : P;
  p_one : P;
  p_mul : P → P → P;
  p_gtb : P → P → bool;
  p_truediv : Z → Z → P;
  p_add : P → P → P;
}.

(** Python [float]: IEEE 754 binary64 with round-to-nearest-even. The
    quotient of two [int]s is the correctly rounded quotient, which
    [float(a) / float(b)] is for counts below 2^53. *)
Definition float_of_count (n : Z) : float := PrimFloat.of_uint63 (Uint63.of_Z n).

#[export] Instance binary64 : Arith float := {|
  p_zero := 0%float;
  p_one := 1%float;
  p_mul := PrimFloat.mul;
  p_gtb := fun a b => PrimFloat.ltb b a;
  p_truediv := fun a b => PrimFloat.div (float_of_count a) (float_of_count b);
  p_add := PrimFloat.add;
|}.

(** The same operations without rounding. *)
#[export] Instance exact : Arith Qc := {|
  p_zero := 0%Qc;
  p_one := 1%Qc;
  p_mul := Qcmult;
  p_gtb := fun a b => bool_decide (b < a)%Qc;
  p_truediv := fun a b => (Qc_of_Z a / Qc_of_Z b)%Qc;
  p_add := Qcplus;
|}.

Definition p_sum `{Arith P} (l : list P) : P := foldr p_add p_zero l.

(** ** python-chess *)

(** What the program uses of python-chess. A [Board] is the state of one
    [chess.Board] object; [push_uci] is [parse_uci] followed by [push] and
    raises when [parse_uci] rejects the move. *)
Class Chess := {
  Board : Type;
  Move : Type;
  starting_board : Board;
  fen : Board → string;
  push : Board → Move → Board;
  parse_uci : Board → string → option Move;
  move_stack : Board → list Move;
}.

(** ** Exceptions and the heap of boards *)

Inductive exn `{Chess} :=
  | MultipleMoves (stack : list Move)
  | ZeroDivisionError
  | AssertionError
  | IndexError
  | IllegalMoveError (uci : string).

Inductive result `{Chess} (A : Type) :=
  | Ok (a : A)
  | Raise (e : exn).
Arguments Ok {_ _} _.
Arguments Raise {_ _} _.

(** Board objects are held by reference, in a heap of board states. *)
Abbreviation loc := nat.
Abbreviation heap := (list Board).

Section Heap.
Context {lib : Chess}.

Definition read (h : heap) (l : loc) : Board := default starting_board (h !! l).

(** Computations that read and update board objects and may raise. *)
Definition M (A : Type) : Type := heap → result (A * heap).

Definition ret {A} (a : A) : M A := λ h, Ok (a, h).
Definition bind {A B} (c : M A) (k : A → M B) : M B :=
  λ h, match c h with
       | Ok (a, h') => k a h'
       | Raise e => Raise e
       end.
Definition raise {A} (e : exn) : M A := λ _, Raise e.

(** [chess.Board()] and [board.copy()] create a new object. *)
Definition alloc (b : Board) : M loc := λ h, Ok (length h, h ++ [b]).
Definition Board_new : M loc := alloc starting_board.
Definition Board_copy (board : loc) : M loc := λ h, alloc (read h board) h.
Definition Board_fen (board : loc) : M string := λ h, Ok (fen (read h board), h).
Definition Board_push (board : loc) (move : Move) : M unit :=
  λ h, Ok (tt, <[board := push (read h board) move]> h).
Definition Board_push_uci (board : loc) (uci : string) : M unit :=
  λ h, match parse_uci (read h board) uci with
       | Some move => Board_push board move h
       | None => Raise (IllegalMoveError uci)
       end.
End Heap.

Notation "'let*' x := c1 'in' c2" := (bind c1 (λ x, c2))
  (at level 10, x pattern, c1 at level 100, c2 at level 200, only parsing).

(** ** The program *)

(** The explorer's answer for one position. *)
Record MoveStats := {
  uci : string;
  move_white : Z;
  move_draws : Z;
  move_black : Z;
}.

Record Response := {
  white : Z;
  draws : Z;
  black : Z;
  moves : list MoveStats;
}.

Record PositionNode {P : Type} := {
  board : loc;
  probability : P;
}.
Arguments PositionNode : clear implicits.
Arguments Build_PositionNode {_} _ _.

Section Program.
Context {P : Type} {arith : Arith P} {lib : Chess}.

(** *** [Repertoire.__init__] *)

(** A node of a parsed PGN game: its variations, each with the move that
    leads to it ([child.move]). The root of a game is a node too. *)
#[warning="-register-all"]
Inductive GameNode :=
  | GNode (variations : list (Move * GameNode)).

Definition variations (node : GameNode) : list (Move * GameNode) :=
  match node with GNode vs => vs end.

(** A worklist entry pairs a node with [node.board()], the board after the
    moves from the root of its game. *)
Definition with_boards (parent : Board) (vs : list (Move * GameNode))
  : list (Board * GameNode) :=
  map (λ v, (push parent v.1, v.2)) vs.

(** The inner [while pgn_nodes] loop. [pop()] takes the last entry and
    [extend] appends. *)
Fixpoint index_nodes (fuel : nat) (pgn_nodes : list (Board * GameNode))
    (response_map : gmap string Move) : option (result (gmap string Move)) :=
  match fuel with
  | O => None
  | S fuel =>
      match last pgn_nodes with
      | None => Some (Ok response_map)
      | Some (board, node) =>
          let pgn_nodes := removelast pgn_nodes in
          if (1 <? length (variations node))%nat
          then Some (Raise (MultipleMoves (move_stack board)))
          else match variations node with
               | [] => index_nodes fuel pgn_nodes response_map
               | (move, variation0) :: _ =>
                   index_nodes fuel
                     (pgn_nodes ++ with_boards (push board move) (variations variation0))
                     (<[fen board := move]> response_map)
               end
      end
  end.

(** The number of nodes below (and including) a node: fuel for the loop. *)
Fixpoint node_size (node : GameNode) : nat :=
  match node with
  | GNode vs => S (list_sum (map (λ v, node_size v.2) vs))
  end.

Definition worklist_size (pgn_nodes : list (Board * GameNode)) : nat :=
  list_sum (map (λ e, node_size e.2) pgn_nodes).

Definition initial_nodes (game : GameNode) (is_black : bool) : list (Board * GameNode) :=
  if is_black then with_boards starting_board (variations game)
  else [(starting_board, game)].

(** The outer loop over the games of the file. *)
Fixpoint index_games (games : list GameNode) (is_black : bool)
    (response_map : gmap string Move) : option (result (gmap string Move)) :=
  match games with
  | [] => Some (Ok response_map)
  | game :: games =>
      let pgn_nodes := initial_nodes game is_black in
      match index_nodes (S (worklist_size pgn_nodes)) pgn_nodes response_map with
      | Some (Ok response_map) => index_games games is_black response_map
      | r => r
      end
  end.

(** [Repertoire(pgn_file_path, is_black).response_map], for the games read
    from the file. [None] would mean that the fuel did not suffice. *)
Definition Repertoire (games : list GameNode) (is_black : bool)
  : option (result (gmap string Move)) :=
  index_games games is_black ∅.

(** *** The Lichess explorer *)

(** [LichessApiCaller.call_api]: the request is addressed by [board.fen()],
    and the explorer is taken to answer a position the same way throughout a
    run. The pause of [delay_call] has no effect on any value. *)
Context (explorer : string → Response).

Definition call_api (board : loc) : M Response :=
  let* position := Board_fen board in
  ret (explorer position).

Definition lift {A} (r : result A) : M A :=
  λ h, match r with Ok a => Ok (a, h) | Raise e => Raise e end.

(** The [for move in response_object["moves"]] loop. An [int] division by
    zero raises before anything is computed. *)
Fixpoint moves_loop (total_num_games : Z) (response_moves : list MoveStats)
    (move_list : list (string * P)) : result (list (string * P)) :=
  match response_moves with
  | [] => Ok move_list
  | move :: response_moves =>
      let variation_num_games := move_white move + move_draws move + move_black move in
      if total_num_games =? 0 then Raise ZeroDivisionError
      else
        let relative_probability := p_truediv variation_num_games total_num_games in
        moves_loop total_num_games response_moves
          (move_list ++ [(uci move, relative_probability)])
  end.

Definition total_games (response_object : Response) : Z :=
  white response_object + draws response_object + black response_object.

Definition get_most_common_moves_from_lichess (board : loc) : M (list (string * P)) :=
  let* response_object := call_api board in
  let total_num_games := total_games response_object in
  lift (moves_loop total_num_games (moves response_object) []).

(** *** [get_most_common_positions] *)

(** The [for next_move in next_moves] loop. *)
Fixpoint positions_loop (position : PositionNode P) (next_moves : list (string * P))
    (next_positions : list (PositionNode P)) : M (list (PositionNode P)) :=
  match next_moves with
  | [] => ret next_positions
  | next_move :: next_moves =>
      let* next_board := Board_copy (board position) in
      let* _ := Board_push_uci next_board next_move.1 in
      let next_probability := p_mul (probability position) next_move.2 in
      positions_loop position next_moves
        (next_positions ++ [Build_PositionNode next_board next_probability])
  end.

Definition get_most_common_positions (position : PositionNode P) : M (list (PositionNode P)) :=
  let* next_moves := get_most_common_moves_from_lichess (board position) in
  positions_loop position next_moves [].

(** *** [pop_most_probable_node] *)

(** The [for idx, position in enumerate(leaf_positions)] loop, from index
    [idx] on, with the loop variables [max_idx] and [max_probability]. *)
Fixpoint scan (idx : nat) (leaf_positions : list (PositionNode P))
    (max_idx : option nat) (max_probability : P) : option nat * P :=
  match leaf_positions with
  | [] => (max_idx, max_probability)
  | position :: leaf_positions =>
      if p_gtb (probability position) max_probability
      then scan (S idx) leaf_positions (Some idx) (probability position)
      else scan (S idx) leaf_positions max_idx max_probability
  end.

(** Returns the node and the list without it ([leaf_positions.pop(max_idx)]
    removes the node from the caller's list). *)
Definition pop_most_probable_node (leaf_positions : list (PositionNode P))
  : result (PositionNode P * list (PositionNode P)) :=
  match (scan 0 leaf_positions None p_zero).1 with
  | None => Raise AssertionError
  | Some max_idx =>
      match leaf_positions !! max_idx with
      | Some node => Ok (node, delete max_idx leaf_positions)
      | None => Raise IndexError
      end
  end.

(** *** [play_repertoire_move] *)

(** The [KeyError] of a missing key is caught inside the function. *)
Definition play_repertoire_move (repertoire : gmap string Move) (board : loc) : M bool :=
  let* position := Board_fen board in
  match repertoire !! position with
  | Some move =>
      let* _ := Board_push board move in
      ret true
  | None => ret false
  end.

(** *** [get_most_common_unknown_positions] *)

(** The two lists the main loop works on. *)
Record locals := {
  leaf_positions : list (PositionNode P);
  unknown_positions : list (PositionNode P);
}.

(** How an iteration ends: back to the loop test, or at the [return]
    inside the loop. *)
Inductive control := Continue | Return.

(** One iteration of [while leaf_positions], entered with a non-empty
    list. *)
Definition loop_body (repertoire : gmap string Move) (num_positions : Z)
    (st : locals) : M (control * locals) :=
  let* popped := lift (pop_most_probable_node (leaf_positions st)) in
  let node := popped.1 in
  let leaf_positions := popped.2 in
  let* repertoire_move_exists := play_repertoire_move repertoire (board node) in
  if (repertoire_move_exists : bool) then
    let* next_positions := get_most_common_positions node in
    ret (Continue, {| leaf_positions := leaf_positions ++ next_positions;
                      unknown_positions := unknown_positions st |})
  else
    let unknown_positions := unknown_positions st ++ [node] in
    let st := {| leaf_positions := leaf_positions;
                 unknown_positions := unknown_positions |} in
    if Z.of_nat (length unknown_positions) =? num_positions
    then ret (Return, st)
    else ret (Continue, st).

(** The loop; it ends with the values of both lists at the [return]
    reached. [None]: the fuel ran out before any [return]. *)
Fixpoint while_leaf_positions (fuel : nat) (repertoire : gmap string Move)
    (num_positions : Z) (st : locals) (h : heap) : option (result (locals * heap)) :=
  match fuel with
  | O => None
  | S fuel =>
      match leaf_positions st with
      | [] => Some (Ok (st, h))
      | _ :: _ =>
          match loop_body repertoire num_positions st h with
          | Raise e => Some (Raise e)
          | Ok ((Return, st), h) => Some (Ok (st, h))
          | Ok ((Continue, st), h) =>
              while_leaf_positions fuel repertoire num_positions st h
          end
      end
  end.

(** The lists before the loop. *)
Definition initial_locals (is_black : bool) : M locals :=
  let* start := Board_new in
  let initial_position := Build_PositionNode start p_one in
  let* leaf_positions :=
    (if is_black then get_most_common_positions initial_position
     else ret [initial_position]) in
  ret {| leaf_positions := leaf_positions; unknown_positions := [] |}.

(** The whole call up to its [return], on the games read from the file and
    starting without any board object. *)
Definition search (fuel : nat) (games : list GameNode) (is_black : bool)
    (num_positions : Z) : option (result (locals * heap)) :=
  match Repertoire games is_black with
  | None => None
  | Some (Raise e) => Some (Raise e)
  | Some (Ok repertoire) =>
      match initial_locals is_black [] with
      | Raise e => Some (Raise e)
      | Ok (st, h) => while_leaf_positions fuel repertoire num_positions st h
      end
  end.

(** The value returned, with the boards the nodes refer to. *)
Definition get_most_common_unknown_positions (fuel : nat) (games : list GameNode)
    (is_black : bool) (num_positions : Z)
  : option (result (list (PositionNode P) * heap)) :=
  match search fuel games is_black num_positions with
  | Some (Ok (st, h)) => Some (Ok (unknown_positions st, h))
  | Some (Raise e) => Some (Raise e)
  | None => None
  end.
End Program.
Arguments locals : clear implicits.

(** *** [LichessApiCaller.delay_call] *)

(** A [datetime] counts microseconds, and so does a [timedelta]: the
    difference of two [datetime]s and [timedelta(seconds=0.5)], which is
    500000, are exact. *)
Record LichessApiCaller := {
  last_call_time : option Z;
}.

(** [float(n)] for an [int]; exact below 2^53. *)
Definition float_of_int (n : Z) : float :=
  if n <? 0 then PrimFloat.opp (float_of_count (- n)) else float_of_count n.

(** [timedelta.total_seconds()]: the microseconds divided by [10**6], a
    quotient of two [int]s. *)
Definition total_seconds (delta : Z) : float :=
  PrimFloat.div (float_of_int delta) 1000000%float.

(** [delay_call], for the values [now] and [after] that its two calls of
    [datetime.datetime.now()] return (the first call is made only when
    [last_call_time] is set). The result is the argument of [time.sleep], when
    it is called, and the object afterwards. *)
Definition delay_call (self : LichessApiCaller) (now after : Z)
  : option float * LichessApiCaller :=
  let pause :=
    match last_call_time self with
    | Some last =>
        let time_since_last_call := now - last in
        if time_since_last_call <? 500000
        then Some (PrimFloat.sub 0.5%float (total_seconds time_since_last_call))
        else None
    | None => None
    end in
  (pause, {| last_call_time := Some after |}).

(** ** A small model of python-chess, for examples *)

(** A board is its stack of UCI moves; every non-empty string is a legal
    move; the position key is the number of plies in unary, a colon and the
    moves (so there are no transpositions). *)
Module Toy.
Fixpoint unary (n : nat) : string :=
  match n with
  | O => ""
  | S n => String "I"%char (unary n)
  end.

Definition toy_fen (b : list string) : string :=
  unary (length b) +:+ ":" +:+ String.concat " " b.

Fixpoint toy_plies (position : string) : nat :=
  match position with
  | String "I"%char position => S (toy_plies position)
  | _ => O
  end.

Definition toy_parse_uci (b : list string) (uci : string) : option string :=
  if decide (uci = "") then None else Some uci.

#[global] Instance chess : Chess := {|
  Board := list string;
  Move := string;
  starting_board := [];
  fen := toy_fen;
  push := λ b m, b ++ [m];
  parse_uci := toy_parse_uci;
  move_stack := λ b, b;
|}.

(** A line of moves as a game tree without side lines. *)
Fixpoint line (ms : list string) : GameNode :=
  match ms with
  | [] => GNode []
  | m :: ms => GNode [(m, line ms)]
  end.

Definition stats (uci : string) (games : Z) : MoveStats :=
  {| uci := uci; move_white := games; move_draws := 0; move_black := 0 |}.

Definition response (total : Z) (ms : list MoveStats) : Response :=
  {| white := total; draws := 0; black := 0; moves := ms |}.

Definition no_data : Response := response 0 [].
End Toy.

(** * The vocabulary of the properties *)

(** ** Orders and bounds on probabilities *)

(** What the selection needs of [>]: a strict weak order on the values that
    can be compared at all (every [float] except NaN). *)
Class Ordered (P : Type) `{Arith P} := {
  comparable : P → Prop;
  comparable_zero : comparable p_zero;
  gtb_asym : ∀ a b, p_gtb a b = true → p_gtb b a = false;
  gtb_negtrans : ∀ a b c,
    comparable b → p_gtb a b = false → p_gtb b c = false → p_gtb a c = false;
}.

(** [0 <= p <= 1], written with the program's [>]. *)
Definition in_unit `{Arith P} (p : P) : Prop :=
  p_gtb p_zero p = false ∧ p_gtb p p_one = false.

(** What keeps probabilities between 0 and 1. Exact arithmetic has these
    properties. *)
Class UnitLaws (P : Type) `{Arith P} : Prop := {
  unit_one : in_unit p_one;
  unit_mul : ∀ a b, in_unit a → in_unit b → in_unit (p_mul a b);
  unit_truediv : ∀ games total,
    0 ≤ games ≤ total → total ≠ 0 → in_unit (p_truediv games total);
}.

(** What keeps probabilities above 0. Exact arithmetic has these properties;
    binary64 does not, where a product of small numbers is 0. *)
Class PositiveLaws (P : Type) `{Arith P} : Prop := {
  positive_one : p_gtb p_one p_zero = true;
  positive_mul : ∀ a b,
    p_gtb a p_zero = true → p_gtb b p_zero = true → p_gtb (p_mul a b) p_zero = true;
  positive_truediv : ∀ games total,
    0 < games → 0 < total → p_gtb (p_truediv games total) p_zero = true;
}.

(** A FEN records the number of plies played (the move number and the side
    to move), and a push adds one. *)
Class PlyCount {lib : Chess} := {
  plies : string → nat;
  plies_push : ∀ b move, plies (fen (push b move)) = S (plies (fen b));
}.

(** ** Nodes, candidates and children *)

Section Nodes.
Context {P : Type} {arith : Arith P} {lib : Chess}.
Implicit Types (node position : PositionNode P) (seen : list (PositionNode P))
  (h : heap) (b : Board).

(** The comparisons of the selection, on nodes: [node'] has a larger
    probability than [node], or does not; [node] has a probability above 0. *)
Definition above node' node : Prop :=
  p_gtb (probability node') (probability node) = true.
Definition not_above node' node : Prop :=
  p_gtb (probability node') (probability node) = false.
Definition positive node : Prop := p_gtb (probability node) p_zero = true.

(** The loop variables, once the nodes [seen] have been visited: without
    an index, no node was positive; with one, it is the place of the first
    largest node seen. *)
Definition scanned seen (max_idx : option nat) (max_probability : P) : Prop :=
  match max_idx with
  | None => max_probability = p_zero ∧ Forall (λ node, ¬ positive node) seen
  | Some idx =>
      ∃ before node after,
        seen = before ++ node :: after ∧ idx = length before ∧
        max_probability = probability node ∧ positive node ∧
        Forall (above node) before ∧ Forall (λ node', not_above node' node) after
  end.

(** The games in which a move was played. *)
Definition move_games (move : MoveStats) : Z :=
  move_white move + move_draws move + move_black move.

(** The candidates of a response with a non-zero total. *)
Definition relative_moves (total_num_games : Z) (response_moves : list MoveStats)
  : list (string * P) :=
  map (λ move, (uci move, p_truediv (move_games move) total_num_games)) response_moves.

(** The board a candidate leads to, if python-chess accepts the move. *)
Definition pushed_uci b (uci : string) : option Board := push b <$> parse_uci b uci.

(** The children of [position] for the candidates [next_moves], their boards
    being the objects created from [first] on. *)
Definition child_nodes position (first : loc) (next_moves : list (string * P))
  : list (PositionNode P) :=
  imap (λ i next_move,
          {| board := (first + i)%nat;
             probability := p_mul (probability position) next_move.2 |}) next_moves.

(** The nodes of the frontier refer to board objects that exist, and no two
    of them to the same one. *)
Definition separate (leaf : list (PositionNode P)) h : Prop :=
  Forall (λ node, (board node < length h)%nat) leaf ∧ NoDup (board <$> leaf).
End Nodes.

(** ** The nodes of the repertoire *)

Section Positions.
Context {lib : Chess}.
Implicit Types (board : Board) (node : GameNode) (entry : Board * GameNode)
  (response_map : gmap string Move).

(** The nodes of a game tree at which the indexed side is to move, each with
    its board: the node itself and, below any of its variations, the nodes
    that the replies lead to. *)
Fixpoint positions_to_move board node {struct node} : list (Board * GameNode) :=
  (board, node) ::
  match node with
  | GNode vs =>
      flat_map (λ v,
        match v.2 with
        | GNode replies =>
            flat_map (λ r, positions_to_move (push (push board v.1) r.1) r.2) replies
        end) vs
  end.

(** The same, for the entries of a worklist. *)
Definition positions_below (pgn_nodes : list (Board * GameNode))
  : list (Board * GameNode) :=
  flat_map (λ entry, positions_to_move entry.1 entry.2) pgn_nodes.

(** All of them, over the games of a file. *)
Definition positions_to_move_in (games : list GameNode) (is_black : bool)
  : list (Board * GameNode) :=
  flat_map (λ game, positions_below (initial_nodes game is_black)) games.

(** A node with more than one variation. *)
Definition conflicting entry : Prop := (1 < length (variations entry.2))%nat.

(** The move of [node.variation(0)]. *)
Definition prescribed entry : option Move := fst <$> head (variations entry.2).

(** The map [response_map'] is [response_map] extended by the first
    variations of the nodes [own]. *)
Definition indexed (own : list (Board * GameNode)) response_map response_map' : Prop :=
  (∀ position move, response_map' !! position = Some move →
     response_map !! position = Some move ∨
     ∃ entry, entry ∈ own ∧ fen entry.1 = position ∧ prescribed entry = Some move) ∧
  (∀ position, is_Some (response_map !! position) → is_Some (response_map' !! position)) ∧
  (∀ entry, entry ∈ own → is_Some (prescribed entry) →
     is_Some (response_map' !! fen entry.1)).
End Positions.

(** ** The states of a run *)

Section States.
Context {P : Type} {arith : Arith P} {lib : Chess} {ply_count : PlyCount}.
Context (explorer : string → Response) (repertoire : gmap string Move) (num_positions : Z).
Implicit Types (node : PositionNode P) (h : heap) (st : locals P) (c : control) (b : Board).

(** The states of a run: [reaches is_black c st h] when the run arrives with
    the lists [st] and the boards [h] at the loop test ([Continue]) or at the
    [return] inside the loop ([Return]). *)
Inductive reaches (is_black : bool) : control → locals P → heap → Prop :=
  | reaches_initial st h :
      initial_locals explorer is_black [] = Ok (st, h) →
      reaches is_black Continue st h
  | reaches_iteration c st h st' h' :
      reaches is_black Continue st h →
      leaf_positions st ≠ [] →
      loop_body explorer repertoire num_positions st h = Ok ((c, st'), h') →
      reaches is_black c st' h'.

(** The candidates the explorer gives for a board. *)
Definition candidates (b : Board) : result (list (string * P)) :=
  moves_loop (total_games (explorer (fen b))) (moves (explorer (fen b))) [].

(** One expansion, for a node whose board is [b]. *)
Definition expands node (b : Board) h (next_positions : list (PositionNode P)) h' : Prop :=
  ∃ next_moves boards,
    candidates b = Ok next_moves ∧
    Forall2 (λ next_move b', pushed_uci b next_move.1 = Some b') next_moves boards ∧
    next_positions = child_nodes node (length h) next_moves ∧
    h' = h ++ boards.

(** The explorer's contract: no move has more games than the position. *)
Definition counts_within_total : Prop :=
  ∀ position,
    Forall (λ move, 0 ≤ move_games move ≤ total_games (explorer position))
      (moves (explorer position)).

(** An explorer whose every answer can be used: each move it lists for a
    position is accepted by python-chess there and was played in at least one
    game, and a position with moves has games. *)
Definition answers_playable : Prop :=
  ∀ b,
    Forall (λ move, 0 < move_games move ∧ is_Some (parse_uci b (uci move)))
      (moves (explorer (fen b))) ∧
    (moves (explorer (fen b)) ≠ [] → 0 < total_games (explorer (fen b))).

(** *** A measure of the work left *)

(** The boards one ply after [b] that the explorer's moves lead to. *)
Definition replies b : list Board :=
  omap (λ move, pushed_uci b (uci move)) (moves (explorer (fen b))).

(** A bound on the iterations spent below a node with board [b], for
    repertoire moves at no more than [budget] plies on the way. *)
Fixpoint cost (budget : nat) b : nat :=
  match budget with
  | O => 1
  | S budget =>
      S (match repertoire !! fen b with
         | Some move => list_sum (cost budget <$> replies (push b move))
         | None => 0
         end)
  end.

(** No position of the repertoire has this many plies. *)
Definition depth_bound : nat := S (max_list (plies <$> (map_to_list repertoire).*1)).

(** The bound for a node of the frontier, and for the whole frontier. *)
Definition weight h node : nat :=
  cost (depth_bound - plies (fen (read h (board node)))) (read h (board node)).

Definition potential (leaf : list (PositionNode P)) h : nat :=
  list_sum (weight h <$> leaf).
End States.

(** ** Examples on the small model *)

Module Examples.
Import Toy.

(** An explorer that knows three positions. *)
Definition openings (position : string) : Response :=
  if decide (position = ":") then
    response 10 [stats "d2d4" 5; stats "e2e4" 3; stats "c2c4" 2]
  else if decide (position = "I:d2d4") then
    response 10 [stats "d7d5" 5; stats "g8f6" 3]
  else if decide (position = "III:d2d4 d7d5 c2c4") then
    response 10 [stats "e7e6" 5; stats "c7c6" 3]
  else no_data.

(** The repertoire [1. d4 d5 2. c4]. *)
Definition queens_gambit : gmap string string :=
  {[ ":" := "d2d4"; "II:d2d4 d7d5" := "c2c4" ]}.

Definition after_d4 : PositionNode float := {| board := 0%nat; probability := 0.5%float |}.
Definition after_d4_children : list (PositionNode float) :=
  [ {| board := 1%nat; probability := 0.25%float |};
    {| board := 2%nat; probability := p_mul 0.5%float (p_truediv 3 10) |} ].
Definition after_d4_boards : heap :=
  [ ["d2d4"]; ["d2d4"; "d7d5"]; ["d2d4"; "g8f6"] ].

(** A response without games that still lists a move. *)
Definition empty_total (position : string) : Response :=
  response 0 [stats "e2e4" 0].

(** A response that lists a move no game has played. *)
Definition unplayed_move (position : string) : Response :=
  if decide (position = ":") then response 10 [stats "e2e4" 10; stats "a2a3" 0]
  else no_data.

Definition start : PositionNode float := {| board := 0%nat; probability := 1%float |}.

(** A node reached in 3 games of 10, and an explorer with two replies. *)
Definition three_tenths : PositionNode float :=
  {| board := 0%nat; probability := p_truediv 3 10 |}.
Definition two_replies (position : string) : Response :=
  response 10 [stats "e7e5" 1; stats "c7c5" 2].

(** The same node and its children in exact arithmetic. *)
Definition three_tenths_exact : PositionNode Qc :=
  {| board := 0%nat; probability := p_truediv 3 10 |}.
Definition two_children_exact : list (PositionNode Qc) :=
  [ {| board := 1%nat; probability := p_mul (p_truediv 3 10) (p_truediv 1 10) |};
    {| board := 2%nat; probability := p_mul (p_truediv 3 10) (p_truediv 2 10) |} ].

(** Two chapters of one study: [1. e4] and [1. d4]. *)
Definition two_chapters : list GameNode := [line ["e2e4"]; line ["d2d4"]].

(** One chapter with a side line: [1. e4 (1. d4)]. *)
Definition one_chapter : list GameNode := [GNode [("e2e4", GNode []); ("d2d4", GNode [])]].
End Examples.

(** A frontier with two nodes of the largest probability. *)
Definition example_leaves : list (PositionNode float) :=
  [ {| board := 0%nat; probability := 0.25%float |};
    {| board := 1%nat; probability := 0.5%float |};
    {| board := 2%nat; probability := 0%float |};
    {| board := 3%nat; probability := 0.5%float |} ].

(** The lists at the start of a search for White, and the boards then. *)
Definition example_state : locals float :=
  {| leaf_positions := [Examples.start]; unknown_positions := [] |}.
Definition example_boards : list (list string) := [[]].

(** ** Transitivity of [>] *)

(** [>] is transitive, on binary64 for every value, NaN included. *)
Class Transitive_gtb (P : Type) `{Arith P} : Prop :=
  gtb_trans : ∀ a b c : P, p_gtb a b = true → p_gtb b c = true → p_gtb a c = true.

(** ** The tree that the search explores *)

Section SearchTree.
Context {P : Type} {arith : Arith P} {lib : Chess}.
Context (explorer : string → Response) (repertoire : gmap string Move).
Implicit Types (b : Board) (p : P).

(** A reply of the opponent to the position [b] that was reached with
    probability [p]: a candidate of the explorer there, on the board it leads
    to, with the product of the probabilities. *)
Definition reply_of b p b' (p' : P) : Prop :=
  ∃ next_moves next_move,
    candidates explorer b = Ok next_moves ∧ next_move ∈ next_moves ∧
    pushed_uci b next_move.1 = Some b' ∧ p' = p_mul p next_move.2.

(** The positions below a position: the position itself and, when the
    repertoire has a move for it, the positions below every reply to that
    move. *)
Inductive below : Board → P → Board → P → Prop :=
  | below_here b p : below b p b p
  | below_reply b p move b' p' b'' p'' :
      repertoire !! fen b = Some move →
      reply_of (push b move) p b' p' →
      below b' p' b'' p'' →
      below b p b'' p''.

(** Where the search starts: the starting position for White, the replies
    to it for Black. *)
Definition seed (is_black : bool) b p : Prop :=
  if is_black then reply_of starting_board p_one b p
  else b = starting_board ∧ p = p_one.

(** A gap of the repertoire: a position of the tree for which the
    repertoire has no move. *)
Definition gap (is_black : bool) b p : Prop :=
  ∃ b0 p0, seed is_black b0 p0 ∧ below b0 p0 b p ∧ repertoire !! fen b = None.
End SearchTree.

(** ** The games of the moves listed *)

(** The games of a response that its moves account for. *)
Definition listed_games (response_object : Response) : Z :=
  foldr Z.add 0 (move_games <$> moves response_object).

(** An explorer whose moves are parts of the games of the position: no
    move has a negative count, and the moves together have no more games than
    the position. *)
Definition counts_add_up (explorer : string → Response) : Prop :=
  ∀ position,
    Forall (λ move, 0 ≤ move_games move) (moves (explorer position)) ∧
    listed_games (explorer position) ≤ total_games (explorer position).

(** ** Answers of the explorer that cannot be used *)

Section Answers.
Context {lib : Chess} (explorer : string → Response).

(** What has gone wrong when the explorer's answer for some board cannot be
    used. *)
Definition unusable_answer (e : exn) : Prop :=
  (∃ b, e = ZeroDivisionError ∧
     total_games (explorer (fen b)) = 0 ∧ moves (explorer (fen b)) ≠ []) ∨
  (∃ b move, e = IllegalMoveError (uci move) ∧
     move ∈ moves (explorer (fen b)) ∧ parse_uci b (uci move) = None).
End Answers.

(** ** The pause of [delay_call] *)

(** The pause after [d] microseconds is between 0 and half a second and
    longer than [499999 - d] microseconds, and the seconds of [d] and [d + 1]
    microseconds are in this order. *)
Definition pause_fits (d : Z) : bool :=
  let seconds := total_seconds d in
  let pause := PrimFloat.sub 0.5%float seconds in
  PrimFloat.leb 0%float pause && PrimFloat.leb pause 0.5%float &&
  PrimFloat.ltb (total_seconds (499999 - d)) pause &&
  PrimFloat.eqb seconds seconds &&
  negb (PrimFloat.ltb (total_seconds (d + 1)) seconds).

Fixpoint all_from (f : Z → bool) (d : Z) (n : nat) : bool :=
  match n with
  | O => true
  | S n => f d && all_from f (d + 1) n
  end.

(** ** More examples on the small model *)

Module Runs.
Import Toy.

(** The queen's gambit search in exact arithmetic: the nodes after
    [1. d4 Nf6], [1. d4 d5 2. c4 e6] and [1. d4 d5 2. c4 c6], and the boards at
    the end. *)
Definition after_nf6 : PositionNode Qc :=
  {| board := 2%nat; probability := p_mul p_one (p_truediv 3 10) |}.
Definition after_e6 : PositionNode Qc :=
  {| board := 3%nat; probability := p_mul (p_mul p_one (p_truediv 5 10)) (p_truediv 5 10) |}.
Definition after_c6 : PositionNode Qc :=
  {| board := 4%nat; probability := p_mul (p_mul p_one (p_truediv 5 10)) (p_truediv 3 10) |}.
Definition final_boards : list (list string) :=
  [ ["d2d4"]; ["d2d4"; "d7d5"; "c2c4"]; ["d2d4"; "g8f6"];
    ["d2d4"; "d7d5"; "c2c4"; "e7e6"]; ["d2d4"; "d7d5"; "c2c4"; "c7c6"] ].
Definition queens_gambit_games : list GameNode := [line ["d2d4"; "d7d5"; "c2c4"]].

(** An explorer that lists a move python-chess cannot read. *)
Definition garbled (position : string) : Response :=
  response 10 [stats "e2e4" 5; stats "" 3; stats "d2d4" 2].

(** The first two nodes that the queen's gambit search reports on binary64. *)
Definition first_two : list (PositionNode float) :=
  [ {| board := 2%nat; probability := p_mul p_one (p_truediv 3 10) |};
    {| board := 3%nat; probability := p_mul (p_mul p_one (p_truediv 5 10)) (p_truediv 5 10) |} ].
End Runs.

(** * Properties *)

(** ** The order on probabilities *)

Ltac sf_cases :=
  repeat match goal with
  | |- context [Z.compare ?x ?y] => destruct (Z.compare_spec x y); simpl
  | H : context [Z.compare ?x ?y] |- _ => destruct (Z.compare_spec x y); simpl in H
  | |- context [Pos.compare_cont Eq ?x ?y] =>
      change (Pos.compare_cont Eq x y) with (Pos.compare x y);
      destruct (Pos.compare_spec x y); simpl
  | H : context [Pos.compare_cont Eq ?x ?y] |- _ =>
      change (Pos.compare_cont Eq x y) with (Pos.compare x y) in H;
      destruct (Pos.compare_spec x y); simpl in H
  end.

Lemma SFltb_asym a b : SFltb a b = true → SFltb b a = false.
Proof.
  unfold SFltb, SFcompare.
  destruct a as [[]|[]| |[] ma ea], b as [[]|[]| |[] mb eb]; simpl; try done;
    sf_cases; try done; subst; lia.
Qed.

Lemma SFltb_negtrans a b c :
  b ≠ S754_nan →
  SFltb a b = false → SFltb b c = false → SFltb a c = false.
Proof.
  unfold SFltb, SFcompare.
  destruct a as [[]|[]| |[] ma ea], b as [[]|[]| |[] mb eb], c as [[]|[]| |[] mc ec];
    simpl; try done; intros _; sf_cases; try done; subst; lia.
Qed.

(** A [float] is comparable when [x == x], that is, when it is not NaN. *)
#[export] Program Instance binary64_ordered : Ordered float := {|
  comparable := λ x, PrimFloat.eqb x x = true;
|}.
Next Obligation. reflexivity. Qed.
Next Obligation.
  intros a b. cbn. rewrite !FloatAxioms.ltb_spec. apply SFltb_asym.
Qed.
Next Obligation.
  intros a b c. cbn. rewrite FloatAxioms.eqb_spec, !FloatAxioms.ltb_spec.
  intros Hb Hab Hbc. apply (SFltb_negtrans _ (Prim2SF b)); [|done..].
  by intros Hnan; rewrite Hnan in Hb.
Qed.

#[export] Program Instance exact_ordered : Ordered Qc := {|
  comparable := λ _, True;
|}.
Next Obligation. done. Qed.
Next Obligation.
  intros a b. cbn. rewrite bool_decide_eq_true, bool_decide_eq_false.
  intros Hlt Hgt. by apply (Qclt_not_le _ _ Hlt), Qclt_le_weak.
Qed.
Next Obligation.
  intros a b c _. cbn. rewrite !bool_decide_eq_false.
  intros Hab Hbc Hac. apply Qcnot_lt_le in Hab, Hbc.
  apply (Qclt_not_le _ _ Hac). by etrans.
Qed.

(** ** Selection: [pop_most_probable_node] *)

Section Selection.
Context {P : Type} {arith : Arith P} {order : Ordered P} {lib : Chess}.
Implicit Types (node : PositionNode P) (seen rest : list (PositionNode P)).

Lemma above_of_not_above node node' other :
  comparable (probability other) →
  above node' node → not_above other node → above node' other.
Proof.
  unfold above, not_above. intros Hc Hgt Hle.
  destruct (p_gtb (probability node') (probability other)) eqn:E; [done|].
  by rewrite (gtb_negtrans _ _ _ Hc E Hle) in Hgt.
Qed.

Lemma scanned_step seen node max_idx max_probability :
  Forall (λ node', comparable (probability node')) seen →
  scanned seen max_idx max_probability →
  if p_gtb (probability node) max_probability
  then scanned (seen ++ [node]) (Some (length seen)) (probability node)
  else scanned (seen ++ [node]) max_idx max_probability.
Proof.
  intros Hcomp Hinv.
  destruct (p_gtb (probability node) max_probability) eqn:Hgt.
  - exists seen, node, []. split_and!; try done; try by apply Forall_nil_2.
    + destruct max_idx as [idx|]; simpl in Hinv.
      * destruct Hinv as (before & node0 & after & -> & _ & -> & Hpos & _).
        unfold positive in *.
        destruct (p_gtb (probability node) p_zero) eqn:E; [done|].
        by rewrite (gtb_negtrans _ _ _ comparable_zero E (gtb_asym _ _ Hpos)) in Hgt.
      * destruct Hinv as [-> _]. done.
    + destruct max_idx as [idx|]; simpl in Hinv.
      * destruct Hinv as (before & node0 & after & -> & _ & -> & _ & Hbefore & Hafter).
        apply Forall_app in Hcomp as [Hcb Hca]. apply Forall_cons_1 in Hca as [_ Hca].
        apply Forall_app; split; [|apply Forall_cons_2]; [|done|].
        -- rewrite Forall_forall in Hcb, Hbefore |- *. intros other Hin.
           apply (above_of_not_above node0); [by apply Hcb|done|].
           by apply gtb_asym, Hbefore.
        -- rewrite Forall_forall in Hca, Hafter |- *. intros other Hin.
           apply (above_of_not_above node0); [by apply Hca|done|by apply Hafter].
      * destruct Hinv as [-> Hnone].
        rewrite Forall_forall in Hcomp, Hnone |- *. intros other Hin.
        pose proof (Hcomp other Hin) as Hc. pose proof (Hnone other Hin) as Hnp.
        unfold above. unfold positive in Hnp.
        destruct (p_gtb (probability node) (probability other)) eqn:E; [done|].
        apply not_true_is_false in Hnp.
        by rewrite (gtb_negtrans _ _ _ Hc E Hnp) in Hgt.
  - destruct max_idx as [idx|]; simpl in *.
    + destruct Hinv as (before & node0 & after & -> & -> & -> & Hpos & Hbefore & Hafter).
      exists before, node0, (after ++ [node]).
      rewrite <-app_assoc. split_and!; try done.
      apply Forall_app; split; [done|]. by apply Forall_singleton.
    + destruct Hinv as [-> Hnone]. split; [done|].
      apply Forall_app; split; [done|]. apply Forall_singleton.
      unfold positive. by rewrite Hgt.
Qed.

Lemma scan_scanned rest : ∀ seen max_idx max_probability,
  Forall (λ node, comparable (probability node)) (seen ++ rest) →
  scanned seen max_idx max_probability →
  scanned (seen ++ rest)
    (scan (length seen) rest max_idx max_probability).1
    (scan (length seen) rest max_idx max_probability).2.
Proof.
  induction rest as [|node rest IH]; intros seen max_idx max_probability Hcomp Hinv.
  - by rewrite app_nil_r.
  - rewrite (cons_middle node seen rest), app_assoc in Hcomp |- *.
    pose proof (scanned_step seen node max_idx max_probability) as Hstep.
    simpl. destruct (p_gtb (probability node) max_probability).
    + replace (S (length seen)) with (length (seen ++ [node]))
        by (rewrite length_app; simpl; lia).
      apply IH; [done|]. apply Hstep; [|done].
      by apply Forall_app in Hcomp as [[? _]%Forall_app _].
    + replace (S (length seen)) with (length (seen ++ [node]))
        by (rewrite length_app; simpl; lia).
      apply IH; [done|]. apply Hstep; [|done].
      by apply Forall_app in Hcomp as [[? _]%Forall_app _].
Qed.

(** C7. On a list of comparable probabilities with at least one positive
    node, [pop_most_probable_node] succeeds, removes one node from the list
    and returns it; every node before it in the list has a strictly smaller
    probability and no node after it has a larger one, so it is the first
    node of maximal probability. *)
Theorem pop_most_probable_node_first_max (leaf_positions : list (PositionNode P)) :
  Forall (λ node, comparable (probability node)) leaf_positions →
  Exists positive leaf_positions →
  ∃ before node after,
    leaf_positions = before ++ node :: after ∧
    pop_most_probable_node leaf_positions = Ok (node, before ++ after) ∧
    Forall (above node) before ∧
    Forall (λ node', not_above node' node) after.
Proof.
  intros Hcomp Hpos.
  pose proof (scan_scanned leaf_positions [] None p_zero Hcomp) as Hscan.
  unfold pop_most_probable_node. simpl in Hscan.
  destruct (scan 0 leaf_positions None p_zero) as [[idx|] max_probability]; simpl in *.
  - destruct Hscan as (before & node & after & -> & -> & _ & _ & Hbefore & Hafter).
    { split; [done|]. apply Forall_nil_2. }
    exists before, node, after. split_and!; try done.
    by rewrite list_lookup_middle, delete_middle.
  - destruct Hscan as [_ Hnone]. { split; [done|]. apply Forall_nil_2. }
    apply Exists_exists in Hpos as (node & Hin & Hp).
    by eapply Forall_forall in Hnone.
Qed.
End Selection.

Lemma pop_most_probable_node_first_max_witness :
  ∃ before node after,
    example_leaves = before ++ node :: after ∧
    pop_most_probable_node example_leaves = Ok (node, before ++ after) ∧
    Forall (above node) before ∧
    Forall (λ node', not_above node' node) after.
Proof.
  apply (pop_most_probable_node_first_max example_leaves).
  - repeat constructor.
  - apply Exists_cons_hd. reflexivity.
Defined.

(** ** Lookup at play time: [play_repertoire_move] *)

Section Lookup.
Context {lib : Chess}.

(** C4. If the position of the board is a key of the index, the call
    returns [True] and the board object holds the old board with the
    prescribed move pushed, no other board being touched; otherwise it
    returns [False] and no board changes. Neither case raises. *)
Theorem play_repertoire_move_hit_or_miss
    (repertoire : gmap string Move) (board : loc) (h : heap) :
  (∀ move, repertoire !! fen (read h board) = Some move →
     ∃ h', play_repertoire_move repertoire board h = Ok (true, h') ∧
           (is_Some (h !! board) → h' !! board = Some (push (read h board) move)) ∧
           (∀ other, other ≠ board → h' !! other = h !! other)) ∧
  (repertoire !! fen (read h board) = None →
     play_repertoire_move repertoire board h = Ok (false, h)).
Proof.
  unfold play_repertoire_move, bind, Board_fen, Board_push, ret.
  split.
  - intros move ->. eexists. split; [done|]. split.
    + intros Hsome. apply list_lookup_insert_eq. by apply lookup_lt_is_Some.
    + intros other Hne. by apply list_lookup_insert_ne.
  - by intros ->.
Qed.
End Lookup.

(** ** Expansion: the explorer's candidates and [get_most_common_positions] *)

Section Expansion.
Context {P : Type} {arith : Arith P} {lib : Chess} (explorer : string → Response).
Implicit Types (position node : PositionNode P) (h : heap) (b : Board).

Lemma moves_loop_spec total_num_games response_moves move_list :
  moves_loop total_num_games response_moves move_list =
    match response_moves with
    | [] => Ok move_list
    | _ :: _ =>
        if total_num_games =? 0 then Raise ZeroDivisionError
        else Ok (move_list ++ relative_moves total_num_games response_moves)
    end.
Proof.
  revert move_list.
  induction response_moves as [|move response_moves IH]; intros move_list; [done|].
  simpl. destruct (total_num_games =? 0) eqn:E; [done|].
  rewrite IH. destruct response_moves as [|move' response_moves]; [done|].
  by rewrite <-app_assoc.
Qed.

Lemma read_app_l h h' (l : loc) : (l < length h)%nat → read (h ++ h') l = read h l.
Proof. intros Hl. unfold read. by rewrite lookup_app_l. Qed.

Lemma read_snoc h b : read (h ++ [b]) (length h) = b.
Proof. unfold read. by rewrite list_lookup_middle. Qed.

Lemma insert_snoc h b b' : <[length h := b']> (h ++ [b]) = h ++ [b'].
Proof.
  rewrite insert_app_r_alt by done. by rewrite Nat.sub_diag.
Qed.

(** One round of the loop: the copy of the parent's board is a new object,
    and the candidate is pushed onto the copy. *)
Lemma positions_loop_cons position next_move next_moves next_positions h :
  positions_loop position (next_move :: next_moves) next_positions h =
    match parse_uci (read h (board position)) next_move.1 with
    | Some move =>
        positions_loop position next_moves
          (next_positions ++
             [{| board := length h;
                 probability := p_mul (probability position) next_move.2 |}])
          (h ++ [push (read h (board position)) move])
    | None => Raise (IllegalMoveError next_move.1)
    end.
Proof.
  simpl. unfold bind, Board_copy, alloc, Board_push_uci, Board_push.
  rewrite read_snoc.
  destruct (parse_uci (read h (board position)) next_move.1); [|done].
  by rewrite insert_snoc.
Qed.

(** The loop over the candidates either creates one board per candidate, or
    stops at a move python-chess rejects. *)
Lemma positions_loop_cases position next_moves : ∀ next_positions h,
  (board position < length h)%nat →
  (∃ boards,
     Forall2 (λ next_move b', pushed_uci (read h (board position)) next_move.1 = Some b')
       next_moves boards ∧
     positions_loop position next_moves next_positions h =
       Ok (next_positions ++ child_nodes position (length h) next_moves, h ++ boards)) ∨
  (∃ next_move,
     next_move ∈ next_moves ∧
     parse_uci (read h (board position)) next_move.1 = None ∧
     positions_loop position next_moves next_positions h =
       Raise (IllegalMoveError next_move.1)).
Proof.
  induction next_moves as [|next_move next_moves IH]; intros next_positions h Hvalid.
  - left. exists []. split; [constructor|]. by rewrite !app_nil_r.
  - rewrite positions_loop_cons.
    destruct (parse_uci (read h (board position)) next_move.1) as [move|] eqn:Hparse.
    + set (b' := push (read h (board position)) move).
      destruct (IH (next_positions ++
                      [{| board := length h;
                          probability := p_mul (probability position) next_move.2 |}])
                   (h ++ [b'])) as [(boards & Hboards & ->)|(bad & Hin & Hbad & ->)].
      { rewrite length_app. lia. }
      * left. exists (b' :: boards). split.
        -- constructor; [by unfold pushed_uci; rewrite Hparse|].
           eapply Forall2_impl; [exact Hboards|]. intros ? ?. by rewrite read_app_l.
        -- f_equal. f_equal; [|by rewrite <-app_assoc].
           rewrite <-app_assoc. f_equal. unfold child_nodes. simpl.
           rewrite Nat.add_0_r. f_equal. apply imap_ext. intros i ? _. simpl.
           f_equal. rewrite length_app. simpl. lia.
      * right. exists bad. split; [by right|]. split; [|done].
        by rewrite read_app_l in Hbad.
    + right. exists next_move. split; [by left|]. done.
Qed.

Lemma get_most_common_positions_unfold position h :
  get_most_common_positions explorer position h =
    let response_object := explorer (fen (read h (board position))) in
    match moves_loop (total_games response_object) (moves response_object) [] with
    | Ok next_moves => positions_loop position next_moves [] h
    | Raise e => Raise e
    end.
Proof.
  unfold get_most_common_positions, get_most_common_moves_from_lichess, call_api,
    bind, Board_fen, ret, lift. simpl.
  by destruct (moves_loop _ _ _).
Qed.

Lemma child_nodes_lookup position first next_moves i :
  child_nodes position first next_moves !! i =
    (λ next_move, {| board := (first + i)%nat;
                     probability := p_mul (probability position) next_move.2 |})
      <$> next_moves !! i.
Proof. unfold child_nodes. by rewrite list_lookup_imap. Qed.

(** C10. A call of [get_most_common_positions] that returns has changed no
    board object that existed before, the parent's included; it has created
    one board object per candidate, and the child for the [i]-th candidate
    refers to the [i]-th new object, which holds the parent's board with that
    candidate pushed, and carries the parent's probability times the
    candidate's. (A node is a value of the embedding: its two fields are never
    assigned after its creation.) *)
Theorem get_most_common_positions_frame position h next_positions h' :
  (board position < length h)%nat →
  get_most_common_positions explorer position h = Ok (next_positions, h') →
  (∀ l : loc, (l < length h)%nat → h' !! l = h !! l) ∧
  ∃ next_moves,
    get_most_common_moves_from_lichess explorer (board position) h = Ok (next_moves, h) ∧
    length next_positions = length next_moves ∧
    length h' = (length h + length next_moves)%nat ∧
    ∀ (i : nat) next_move, next_moves !! i = Some next_move →
      ∃ child,
        next_positions !! i = Some child ∧
        board child = (length h + i)%nat ∧
        probability child = p_mul (probability position) next_move.2 ∧
        pushed_uci (read h (board position)) next_move.1 = h' !! board child.
Proof.
  intros Hvalid. rewrite get_most_common_positions_unfold. cbv zeta.
  unfold get_most_common_moves_from_lichess, call_api, bind, Board_fen, ret, lift.
  destruct (moves_loop _ _ _) as [next_moves|]; [|done].
  destruct (positions_loop_cases position next_moves [] h Hvalid)
    as [(boards & Hboards & ->)|(? & _ & _ & ->)]; [|done].
  intros [= <- <-]. split.
  { intros l Hl. by rewrite lookup_app_l. }
  exists next_moves. split; [done|].
  pose proof (Forall2_length _ _ _ Hboards) as Hlen.
  split_and!.
  - unfold child_nodes. by rewrite length_imap.
  - rewrite length_app. lia.
  - intros i next_move Hi.
    destruct (Forall2_lookup_l _ _ _ _ _ Hboards Hi) as (b' & Hb' & Hpush).
    eexists. rewrite child_nodes_lookup, Hi. split_and!; try done. simpl.
    rewrite lookup_app_r by lia.
    replace (length h + i - length h)%nat with i by lia. by rewrite Hb'.
Qed.

(** C6 (as the program has it). For a response whose total is zero, the
    candidates are the empty list, without any division, exactly when the
    response lists no move: the node is then expanded into no child and no
    board is created. When the response lists a move, the first division
    raises [ZeroDivisionError], in the derivation and so in the expansion. *)
Theorem zero_total_response position h :
  total_games (explorer (fen (read h (board position)))) = 0 →
  match moves (explorer (fen (read h (board position)))) with
  | [] =>
      get_most_common_moves_from_lichess (P := P) explorer (board position) h = Ok ([], h) ∧
      get_most_common_positions explorer position h = Ok ([], h)
  | _ :: _ =>
      get_most_common_moves_from_lichess (P := P) explorer (board position) h
        = Raise ZeroDivisionError ∧
      get_most_common_positions explorer position h = Raise ZeroDivisionError
  end.
Proof.
  intros Htotal. rewrite get_most_common_positions_unfold. cbv zeta.
  unfold get_most_common_moves_from_lichess, call_api, bind, Board_fen, ret, lift.
  rewrite moves_loop_spec, Htotal.
  by destruct (moves (explorer (fen (read h (board position))))).
Qed.

(** What an expansion that returns has produced. *)
Lemma get_most_common_positions_children position h next_positions h' :
  (board position < length h)%nat →
  get_most_common_positions explorer position h = Ok (next_positions, h') →
  ∃ next_moves,
    get_most_common_moves_from_lichess explorer (board position) h = Ok (next_moves, h) ∧
    next_positions = child_nodes position (length h) next_moves.
Proof.
  intros Hvalid. rewrite get_most_common_positions_unfold. cbv zeta.
  unfold get_most_common_moves_from_lichess, call_api, bind, Board_fen, ret, lift.
  destruct (moves_loop _ _ _) as [next_moves|]; [|done].
  destruct (positions_loop_cases position next_moves [] h Hvalid)
    as [(boards & Hboards & ->)|(? & _ & _ & ->)]; [|done].
  intros [= <- <-]. by exists next_moves.
Qed.

Lemma child_nodes_probability position first next_moves :
  probability <$> child_nodes position first next_moves =
    (λ next_move, p_mul (probability position) next_move.2) <$> next_moves.
Proof.
  apply list_eq. intros i.
  rewrite !list_lookup_fmap, child_nodes_lookup.
  by destruct (next_moves !! i).
Qed.
End Expansion.

(** ** The main loop *)

Section Iteration.
Context {P : Type} {arith : Arith P} {lib : Chess} (explorer : string → Response).
Implicit Types (node : PositionNode P) (h : heap) (st : locals P).

Lemma pop_most_probable_node_nil :
  pop_most_probable_node ([] : list (PositionNode P)) = Raise AssertionError.
Proof. done. Qed.

Lemma play_repertoire_move_unfold repertoire (l : loc) h :
  play_repertoire_move repertoire l h =
    match repertoire !! fen (read h l) with
    | Some move => Ok (true, <[l := push (read h l) move]> h)
    | None => Ok (false, h)
    end.
Proof.
  unfold play_repertoire_move, bind, Board_fen, Board_push, ret.
  by destruct (repertoire !! fen (read h l)).
Qed.

Lemma read_insert h (l : loc) b : (l < length h)%nat → read (<[l := b]> h) l = b.
Proof. intros Hl. unfold read. by rewrite list_lookup_insert_eq. Qed.

(** The body of the loop, by the two outcomes of the lookup. *)
Lemma loop_body_unfold repertoire num_positions st h node rest :
  pop_most_probable_node (leaf_positions st) = Ok (node, rest) →
  loop_body explorer repertoire num_positions st h =
    match repertoire !! fen (read h (board node)) with
    | Some move =>
        match get_most_common_positions explorer node
                (<[board node := push (read h (board node)) move]> h) with
        | Ok (next_positions, h') =>
            Ok ((Continue, {| leaf_positions := rest ++ next_positions;
                              unknown_positions := unknown_positions st |}), h')
        | Raise e => Raise e
        end
    | None =>
        let found := unknown_positions st ++ [node] in
        Ok ((if Z.of_nat (length found) =? num_positions then Return else Continue,
             {| leaf_positions := rest; unknown_positions := found |}), h)
    end.
Proof.
  intros Hpop. unfold loop_body. unfold bind at 1. unfold lift. rewrite Hpop. simpl.
  unfold bind at 1. rewrite play_repertoire_move_unfold.
  destruct (repertoire !! fen (read h (board node))) as [move|].
  - unfold bind, ret. by destruct (get_most_common_positions _ _ _) as [[??]|].
  - unfold ret. by destruct (_ =? _).
Qed.

(** C2. One iteration of the main loop, for the node [node] that the
    selection removes from the frontier. If the repertoire has a move for the
    node's position, the move is pushed onto the node's board, the explorer is
    asked about the resulting position, and the frontier receives one child
    per candidate, with the node's probability times the candidate's relative
    probability; the result list is unchanged and the loop goes on. If the
    repertoire has no move, the node is appended to the result list; the
    function returns that list at once when its length is the requested
    number, whatever is left in the frontier, and otherwise the loop goes
    on. *)
Theorem main_loop_iteration fuel repertoire num_positions st h node rest :
  pop_most_probable_node (leaf_positions st) = Ok (node, rest) →
  (board node < length h)%nat →
  (∀ move, repertoire !! fen (read h (board node)) = Some move →
     let advanced := push (read h (board node)) move in
     let response_object := explorer (fen advanced) in
     ∀ next_moves boards,
       moves_loop (total_games response_object) (moves response_object) [] = Ok next_moves →
       Forall2 (λ next_move b', pushed_uci advanced next_move.1 = Some b')
         next_moves boards →
       while_leaf_positions explorer (S fuel) repertoire num_positions st h =
         while_leaf_positions explorer fuel repertoire num_positions
           {| leaf_positions := rest ++ child_nodes node (length h) next_moves;
              unknown_positions := unknown_positions st |}
           (<[board node := advanced]> h ++ boards)) ∧
  (repertoire !! fen (read h (board node)) = None →
     let found := unknown_positions st ++ [node] in
     let st' := {| leaf_positions := rest; unknown_positions := found |} in
     while_leaf_positions explorer (S fuel) repertoire num_positions st h =
       if Z.of_nat (length found) =? num_positions then Some (Ok (st', h))
       else while_leaf_positions explorer fuel repertoire num_positions st' h).
Proof.
  intros Hpop Hvalid.
  assert (Hloop : while_leaf_positions explorer (S fuel) repertoire num_positions st h =
            match loop_body explorer repertoire num_positions st h with
            | Raise e => Some (Raise e)
            | Ok ((Return, st), h) => Some (Ok (st, h))
            | Ok ((Continue, st), h) =>
                while_leaf_positions explorer fuel repertoire num_positions st h
            end).
  { simpl. destruct (leaf_positions st); [|done].
    by rewrite pop_most_probable_node_nil in Hpop. }
  rewrite Hloop, (loop_body_unfold _ _ _ _ _ _ Hpop). split.
  - intros move -> advanced response_object next_moves boards Hmoves Hboards.
    rewrite get_most_common_positions_unfold.
    rewrite read_insert by done. fold advanced. cbv zeta. fold response_object.
    rewrite Hmoves.
    destruct (positions_loop_cases node next_moves [] (<[board node := advanced]> h))
      as [(boards' & Hboards' & ->)|(bad & Hin & Hbad & _)].
    + by rewrite length_insert.
    + rewrite length_insert. simpl. do 3 f_equal.
      rewrite read_insert in Hboards' by done.
      clear -Hboards Hboards'. revert boards' Hboards'.
      induction Hboards as [|?????? IH]; intros boards' Hboards'.
      * by apply Forall2_nil_inv_l in Hboards'.
      * apply Forall2_cons_inv_l in Hboards' as (b'' & ? & ? & ? & ->).
        f_equal; [congruence|by apply IH].
    + rewrite read_insert in Hbad by done.
      apply list_elem_of_lookup in Hin as [i Hi].
      destruct (Forall2_lookup_l _ _ _ _ _ Hboards Hi) as (b' & _ & Hpush).
      unfold pushed_uci in Hpush. by rewrite Hbad in Hpush.
  - intros ->. cbv zeta. by destruct (_ =? _).
Qed.
End Iteration.

Lemma get_most_common_positions_frame_witness :
  (∀ l : loc, (l < 1)%nat → Examples.after_d4_boards !! l = [["d2d4"]] !! l) ∧
  ∃ next_moves,
    get_most_common_moves_from_lichess (P := float) Examples.openings 0%nat [["d2d4"]]
      = Ok (next_moves, [["d2d4"]]) ∧
    length Examples.after_d4_children = length next_moves ∧
    length Examples.after_d4_boards = (1 + length next_moves)%nat ∧
    ∀ (i : nat) next_move, next_moves !! i = Some next_move →
      ∃ child,
        Examples.after_d4_children !! i = Some child ∧
        board child = (1 + i)%nat ∧
        probability child = p_mul 0.5%float next_move.2 ∧
        pushed_uci ["d2d4"] next_move.1 = Examples.after_d4_boards !! board child.
Proof.
  apply (get_most_common_positions_frame (lib := Toy.chess)
           Examples.openings Examples.after_d4 [["d2d4"]]).
  - simpl. lia.
  - vm_compute. reflexivity.
Defined.

Lemma main_loop_iteration_witness :
  (∀ move, Examples.queens_gambit !! fen (read example_boards 0%nat) = Some move →
     ∀ next_moves boards,
       moves_loop (P := float)
         (total_games (Examples.openings (fen (push (read example_boards 0%nat) move))))
         (moves (Examples.openings (fen (push (read example_boards 0%nat) move)))) []
         = Ok next_moves →
       Forall2 (λ next_move b',
                  pushed_uci (push (read example_boards 0%nat) move) next_move.1 = Some b')
         next_moves boards →
       while_leaf_positions (P := float) Examples.openings 3 Examples.queens_gambit 1
         example_state example_boards =
       while_leaf_positions (P := float) Examples.openings 2 Examples.queens_gambit 1
         {| leaf_positions := [] ++ child_nodes Examples.start 1 next_moves;
            unknown_positions := [] |}
         (<[0%nat := push (read example_boards 0%nat) move]> example_boards ++ boards)) ∧
  (Examples.queens_gambit !! fen (read example_boards 0%nat) = None →
     while_leaf_positions (P := float) Examples.openings 3 Examples.queens_gambit 1
       example_state example_boards =
     if Z.of_nat (length ([] ++ [Examples.start])) =? 1
     then Some (Ok ({| leaf_positions := []; unknown_positions := [] ++ [Examples.start] |},
                    example_boards))
     else while_leaf_positions (P := float) Examples.openings 2 Examples.queens_gambit 1
            {| leaf_positions := []; unknown_positions := [] ++ [Examples.start] |}
            example_boards).
Proof.
  apply (main_loop_iteration (lib := Toy.chess)
           Examples.openings 2 Examples.queens_gambit 1 example_state example_boards
           Examples.start []).
  - vm_compute. reflexivity.
  - simpl. lia.
Defined.

Lemma zero_total_response_witness :
  get_most_common_moves_from_lichess (P := float) (λ _, Toy.no_data) 0%nat [[]] = Ok ([], [[]]) ∧
  get_most_common_positions (λ _, Toy.no_data) Examples.start [[]] = Ok ([], [[]]).
Proof.
  apply (zero_total_response (lib := Toy.chess) (λ _, Toy.no_data) Examples.start [[]]).
  reflexivity.
Defined.

Lemma zero_total_response_counterexample :
  total_games (Examples.empty_total (fen (read [[]] 0%nat))) = 0 ∧
  get_most_common_moves_from_lichess (P := float) Examples.empty_total 0%nat [[]]
    = Raise ZeroDivisionError ∧
  get_most_common_positions Examples.empty_total Examples.start [[]]
    = Raise ZeroDivisionError.
Proof. by vm_compute. Qed.

(** C5: the selection fails inside the loop. With the moves [e2e4] (all
    10 games) and [a2a3] (no game) after the starting position, a search for
    Black reports the node after [e2e4] and comes back to the loop test with a
    frontier that is not empty; [pop_most_probable_node] finds no node of
    positive probability in it, and the call ends with the error. *)
Lemma selection_fails_in_the_loop :
  ∃ st h,
    reaches (P := float) Examples.unplayed_move ∅ 2 true Continue st h ∧
    leaf_positions st ≠ [] ∧
    pop_most_probable_node (leaf_positions st) = Raise AssertionError ∧
    get_most_common_unknown_positions (P := float) Examples.unplayed_move 10 [] true 2
      = Some (Raise AssertionError).
Proof.
  exists {| leaf_positions := [ {| board := 2%nat; probability := 0%float |} ];
            unknown_positions := [ {| board := 1%nat; probability := 1%float |} ] |},
         [ []; ["e2e4"]; ["a2a3"] ].
  split_and!; [|done|by vm_compute..].
  eapply reaches_iteration.
  - apply reaches_initial. vm_compute. reflexivity.
  - done.
  - vm_compute. reflexivity.
Qed.

(** ** Conservation of probability *)

Section Conservation.
Context {lib : Chess} (explorer : string → Response).
Implicit Types (position : PositionNode Qc) (h : heap).
Local Open Scope Qc_scope.

Lemma p_sum_scale (p : Qc) (l : list Qc) : p_sum (Qcmult p <$> l) = p * p_sum l.
Proof.
  induction l as [|x l IH]; simpl.
  - change (0 = p * 0). ring.
  - change (p * x + p_sum (Qcmult p <$> l) = p * (x + p_sum l)). rewrite IH. ring.
Qed.

(** C8 (in exact arithmetic). With the operations on probabilities read as
    operations on rationals, the probabilities of the children created by an
    expansion sum to the parent's probability times the sum of the relative
    probabilities of the candidates; the sum is at most the parent's
    probability when that is not negative and the relative probabilities sum
    to at most 1. *)
Theorem expansion_conserves_probability position h next_positions h' :
  (board position < length h)%nat →
  get_most_common_positions explorer position h = Ok (next_positions, h') →
  ∃ next_moves,
    get_most_common_moves_from_lichess explorer (board position) h = Ok (next_moves, h) ∧
    p_sum (probability <$> next_positions) = probability position * p_sum (next_moves.*2) ∧
    (0 ≤ probability position → p_sum (next_moves.*2) ≤ 1 →
     p_sum (probability <$> next_positions) ≤ probability position).
Proof.
  intros Hvalid Hcall.
  destruct (get_most_common_positions_children _ _ _ _ _ Hvalid Hcall)
    as (next_moves & Hmoves & ->).
  exists next_moves. split; [done|].
  assert (Hsum : p_sum (probability <$> child_nodes position (length h) next_moves)
                 = probability position * p_sum (next_moves.*2)).
  { rewrite child_nodes_probability, <-p_sum_scale, <-list_fmap_compose. done. }
  split; [done|]. intros Hparent Hle. rewrite Hsum.
  rewrite <-(Qcmult_1_r (probability position)) at 2.
  rewrite !(Qcmult_comm (probability position)). by apply Qcmult_le_compat_r.
Qed.
End Conservation.

Lemma expansion_conserves_probability_witness :
  ∃ next_moves,
    get_most_common_moves_from_lichess Examples.two_replies 0%nat [[]] = Ok (next_moves, [[]]) ∧
    p_sum (probability <$> Examples.two_children_exact)
      = (p_truediv 3 10 * p_sum (next_moves.*2))%Qc ∧
    ((0 ≤ p_truediv 3 10)%Qc → (p_sum (next_moves.*2) ≤ 1)%Qc →
     (p_sum (probability <$> Examples.two_children_exact) ≤ p_truediv 3 10)%Qc).
Proof.
  apply (expansion_conserves_probability (lib := Toy.chess) Examples.two_replies
           Examples.three_tenths_exact [[]] Examples.two_children_exact
           [[]; ["e7e5"]; ["c7c5"]]).
  - simpl. lia.
  - vm_compute. reflexivity.
Defined.

(** On binary64 the two sides differ: the children of a node of probability
    3/10 for replies played in 1 and 2 games of 10 have probabilities that sum
    to 0.089999999999999997, and 3/10 times the sum of the relative
    probabilities is 0.090000000000000011. *)
Lemma expansion_conserves_probability_counterexample :
  ∃ next_positions h' next_moves,
    get_most_common_positions Examples.two_replies Examples.three_tenths [[]]
      = Ok (next_positions, h') ∧
    get_most_common_moves_from_lichess (P := float) Examples.two_replies 0%nat [[]]
      = Ok (next_moves, [[]]) ∧
    p_sum (probability <$> next_positions)
      ≠ p_mul (probability Examples.three_tenths) (p_sum (next_moves.*2)).
Proof.
  eexists _, _, _. split; [by vm_compute|]. split; [by vm_compute|].
  intros Heq. apply (f_equal (PrimFloat.eqb (p_truediv 9 100))) in Heq.
  vm_compute in Heq. discriminate.
Qed.

(** ** The repertoire index *)

Section Index.
Context {lib : Chess}.
Implicit Types (board : Board) (node : GameNode) (entry : Board * GameNode)
  (response_map : gmap string Move).

Lemma indexed_refl response_map : indexed [] response_map response_map.
Proof.
  split_and!; [by left|done|]. intros entry Hin. by apply elem_of_nil in Hin.
Qed.

Lemma indexed_trans own1 own2 response_map1 response_map2 response_map3 :
  indexed own1 response_map1 response_map2 →
  indexed own2 response_map2 response_map3 →
  indexed (own1 ++ own2) response_map1 response_map3.
Proof.
  intros (Hval1 & Hdom1 & Hown1) (Hval2 & Hdom2 & Hown2). split_and!.
  - intros position move Hlookup.
    destruct (Hval2 _ _ Hlookup) as [Hold|(entry & Hin & Hfen & Hmove)].
    + destruct (Hval1 _ _ Hold) as [?|(entry & Hin & Hfen & Hmove)]; [by left|].
      right. exists entry. rewrite elem_of_app. auto.
    + right. exists entry. rewrite elem_of_app. auto.
  - auto.
  - intros entry [Hin|Hin]%elem_of_app Hsome; auto.
Qed.

Lemma worklist_size_app (pgn_nodes1 pgn_nodes2 : list (Board * GameNode)) :
  worklist_size (pgn_nodes1 ++ pgn_nodes2) =
    (worklist_size pgn_nodes1 + worklist_size pgn_nodes2)%nat.
Proof. unfold worklist_size. by rewrite map_app, list_sum_app. Qed.

Lemma worklist_size_with_boards board (vs : list (Move * GameNode)) :
  worklist_size (with_boards board vs) = list_sum (map (λ v, node_size v.2) vs).
Proof. unfold worklist_size, with_boards. by rewrite map_map. Qed.

Lemma positions_below_app (pgn_nodes1 pgn_nodes2 : list (Board * GameNode)) :
  positions_below (pgn_nodes1 ++ pgn_nodes2) =
    positions_below pgn_nodes1 ++ positions_below pgn_nodes2.
Proof. apply flat_map_app. Qed.

Lemma positions_below_with_boards board (vs : list (Move * GameNode)) :
  positions_below (with_boards board vs) =
    flat_map (λ r, positions_to_move (push board r.1) r.2) vs.
Proof.
  unfold positions_below, with_boards.
  induction vs as [|v vs IH]; [done|]. simpl. by rewrite IH.
Qed.

(** One round of the inner loop. *)
Lemma index_nodes_snoc fuel pgn_nodes board node response_map :
  index_nodes (S fuel) (pgn_nodes ++ [(board, node)]) response_map =
    match variations node with
    | [] => index_nodes fuel pgn_nodes response_map
    | [(move, variation0)] =>
        index_nodes fuel
          (pgn_nodes ++ with_boards (push board move) (variations variation0))
          (<[fen board := move]> response_map)
    | _ :: _ :: _ => Some (Raise (MultipleMoves (move_stack board)))
    end.
Proof.
  simpl. rewrite last_snoc, removelast_last.
  by destruct (variations node) as [|[move variation0] [|??]].
Qed.

(** The inner loop ends within the fuel given by the size of the worklist,
    with an error for a conflicting node or with the extended index. *)
Lemma index_nodes_spec fuel : ∀ pgn_nodes response_map,
  (worklist_size pgn_nodes < fuel)%nat →
  (∃ entry,
     entry ∈ positions_below pgn_nodes ∧ conflicting entry ∧
     index_nodes fuel pgn_nodes response_map =
       Some (Raise (MultipleMoves (move_stack entry.1)))) ∨
  (Forall (λ entry, ¬ conflicting entry) (positions_below pgn_nodes) ∧
   ∃ response_map',
     index_nodes fuel pgn_nodes response_map = Some (Ok response_map') ∧
     indexed (positions_below pgn_nodes) response_map response_map').
Proof.
  induction fuel as [|fuel IH]; intros pgn_nodes response_map Hfuel; [lia|].
  destruct (decide (pgn_nodes = [])) as [->|Hne].
  { right. split; [constructor|]. eexists. split; [done|]. apply indexed_refl. }
  apply last_is_Some in Hne as [[board node] Hlast].
  apply last_Some in Hlast as [rest ->].
  rewrite index_nodes_snoc, positions_below_app.
  rewrite worklist_size_app in Hfuel. unfold worklist_size at 2 in Hfuel.
  destruct node as [vs]. simpl in Hfuel |- *. rewrite !app_nil_r.
  destruct vs as [|[move [replies]] [|v2 vs]]; simpl in Hfuel |- *.
  - destruct (IH rest response_map) as [(entry & Hin & Hc & ->)|(Hall & map' & -> & Hidx)];
      [lia|left|right].
    + exists entry. rewrite elem_of_app. auto.
    + split.
      * apply Forall_app. split; [done|]. apply Forall_singleton.
        unfold conflicting. simpl. lia.
      * exists map'. split; [done|].
        rewrite <-(app_nil_r (positions_below rest)) in Hidx.
        destruct Hidx as (Hval & Hdom & Hown). split_and!; [|done|].
        -- intros position mv Hlookup.
           destruct (Hval _ _ Hlookup) as [?|(entry & Hin & ?)]; [by left|].
           right. exists entry. rewrite app_nil_r in Hin. rewrite elem_of_app. auto.
        -- intros entry [Hin|Hin%list_elem_of_singleton]%elem_of_app Hsome.
           ++ apply Hown; [|done]. by rewrite app_nil_r.
           ++ subst entry. by destruct Hsome.
  - rewrite app_nil_r, <-positions_below_with_boards.
    set (next := with_boards (push board move) replies) in *.
    destruct (IH (rest ++ next) (<[fen board := move]> response_map))
      as [(entry & Hin & Hc & ->)|(Hall & map' & -> & Hidx)].
    + rewrite worklist_size_app. unfold next. rewrite worklist_size_with_boards. lia.
    + left. exists entry. rewrite positions_below_app in Hin.
      split; [|done]. rewrite !elem_of_app, elem_of_cons.
      apply elem_of_app in Hin as [?|?]; auto.
    + right. rewrite positions_below_app in Hall, Hidx.
      apply Forall_app in Hall as [Hall1 Hall2]. split.
      * apply Forall_app. split; [done|]. apply Forall_cons_2; [|done].
        unfold conflicting. simpl. lia.
      * exists map'. split; [done|].
        destruct Hidx as (Hval & Hdom & Hown). split_and!.
        -- intros position mv Hlookup.
           destruct (Hval _ _ Hlookup) as [Hins|(entry & Hin & ?)].
           ++ destruct (decide (fen board = position)) as [<-|Hne].
              ** rewrite lookup_insert_eq in Hins. injection Hins as <-.
                 right. exists (board, GNode [(move, GNode replies)]).
                 rewrite elem_of_app, elem_of_cons. auto.
              ** rewrite lookup_insert_ne in Hins by done. by left.
           ++ right. exists entry. split; [|done].
              rewrite !elem_of_app, elem_of_cons.
              apply elem_of_app in Hin as [?|?]; auto.
        -- intros position Hsome. apply Hdom.
           destruct (decide (fen board = position)) as [<-|Hne].
           ++ by rewrite lookup_insert_eq.
           ++ by rewrite lookup_insert_ne.
        -- intros entry Hin Hsome.
           rewrite !elem_of_app, elem_of_cons in Hin.
           destruct Hin as [Hin|[->|Hin]].
           ++ apply Hown; [|done]. rewrite elem_of_app. auto.
           ++ apply Hdom. simpl. by rewrite lookup_insert_eq.
           ++ apply Hown; [|done]. rewrite elem_of_app. auto.
  - left. eexists (board, _). split; [|split; [|done]].
    + rewrite elem_of_app. right. by left.
    + unfold conflicting. simpl. lia.
Qed.

(** The outer loop, game by game. *)
Lemma index_games_spec is_black games : ∀ response_map,
  (∃ entry,
     entry ∈ positions_to_move_in games is_black ∧ conflicting entry ∧
     index_games games is_black response_map =
       Some (Raise (MultipleMoves (move_stack entry.1)))) ∨
  (Forall (λ entry, ¬ conflicting entry) (positions_to_move_in games is_black) ∧
   ∃ response_map',
     index_games games is_black response_map = Some (Ok response_map') ∧
     indexed (positions_to_move_in games is_black) response_map response_map').
Proof.
  induction games as [|game games IH]; intros response_map.
  { right. split; [constructor|]. eexists. split; [done|]. apply indexed_refl. }
  change (positions_to_move_in (game :: games) is_black)
    with (positions_below (initial_nodes game is_black) ++
          positions_to_move_in games is_black).
  cbn [index_games]. cbv zeta.
  set (pgn_nodes := initial_nodes game is_black).
  destruct (index_nodes_spec (S (worklist_size pgn_nodes)) pgn_nodes response_map)
    as [(entry & Hin & Hc & Hrun)|(Hall & map1 & Hrun & Hidx1)]; [lia| |].
  - left. exists entry. rewrite Hrun, elem_of_app. auto.
  - rewrite Hrun.
    destruct (IH map1) as [(entry & Hin & Hc & ->)|(Hall' & map2 & -> & Hidx2)].
    + left. exists entry. rewrite elem_of_app. auto.
    + right. split; [by apply Forall_app|].
      exists map2. split; [done|]. by eapply indexed_trans.
Qed.

End Index.


(** The error for the side line of [1. e4 (1. d4)], found at the root. *)
Example Repertoire_one_chapter :
  Repertoire Examples.one_chapter false = Some (Raise (MultipleMoves [])).
Proof. reflexivity. Qed.

(** ** Probabilities between 0 and 1 *)

#[export] Instance exact_unit : UnitLaws Qc.
Proof.
  assert (Hunit : ∀ a : Qc, in_unit a ↔ (0 ≤ a ∧ a ≤ 1)%Qc).
  { intros a. unfold in_unit. cbn. rewrite !bool_decide_eq_false.
    split; intros [H0 H1]; split; try by apply Qcnot_lt_le.
    all: by apply Qcle_not_lt. }
  split.
  - apply Hunit. done.
  - intros a b [Ha0 Ha1]%Hunit [Hb0 Hb1]%Hunit. apply Hunit. cbn. split.
    + by apply Qcmult_nonneg_nonneg.
    + etrans; [by apply (Qcmult_le_mono_nonneg_r a 1 b)|]. by rewrite Qcmult_1_l.
  - intros games total Hgames Htotal. apply Hunit. cbn.
    assert (0 < Qc_of_Z total)%Qc as Hpos.
    { rewrite <-Z2Qc_inj_0. apply (proj1 (Z2Qc_inj_lt 0 total)). lia. }
    split.
    + apply Qcmult_nonneg_nonneg.
      * rewrite <-Z2Qc_inj_0. apply (proj1 (Z2Qc_inj_le 0 games)). lia.
      * apply Qclt_le_weak, Qcinv_pos. done.
    + apply (Qcmult_le_mono_pos_r _ _ (Qc_of_Z total)); [done|].
      unfold Qcdiv.
      rewrite <-Qcmult_assoc, (Qcmult_comm (/ _)), Qcmult_inv_r, Qcmult_1_r, Qcmult_1_l.
      * apply (proj1 (Z2Qc_inj_le games total)). lia.
      * intros Hzero. rewrite Hzero in Hpos. by apply Qclt_not_le in Hpos.
Qed.

#[export] Instance exact_positive : PositiveLaws Qc.
Proof.
  split; cbn.
  - by apply bool_decide_eq_true.
  - intros a b Ha%bool_decide_eq_true Hb%bool_decide_eq_true.
    apply bool_decide_eq_true. by apply Qcmult_pos_pos.
  - intros games total Hgames Htotal. apply bool_decide_eq_true.
    apply Qcmult_pos_pos.
    + rewrite <-Z2Qc_inj_0. by apply (proj1 (Z2Qc_inj_lt 0 games)).
    + apply Qcinv_pos. rewrite <-Z2Qc_inj_0. by apply (proj1 (Z2Qc_inj_lt 0 total)).
Qed.

(** ** Runs of the search *)

Section Run.
Context {P : Type} {arith : Arith P} {lib : Chess}.
Context (explorer : string → Response) (repertoire : gmap string Move) (num_positions : Z).
Implicit Types (node : PositionNode P) (h : heap) (st : locals P) (c : control).
Local Abbreviation reaches := (reaches explorer repertoire num_positions).
Local Abbreviation candidates := (candidates explorer).
Local Abbreviation expands := (expands explorer).
Local Abbreviation counts_within_total := (counts_within_total explorer).
Local Abbreviation answers_playable := (answers_playable explorer).

Lemma pop_most_probable_node_inv (leaf : list (PositionNode P)) node rest :
  pop_most_probable_node leaf = Ok (node, rest) →
  ∃ before after, leaf = before ++ node :: after ∧ rest = before ++ after.
Proof.
  unfold pop_most_probable_node.
  destruct (scan 0 leaf None p_zero).1 as [max_idx|]; [|done].
  destruct (leaf !! max_idx) as [node'|] eqn:Hlookup; [|done].
  intros [= <- <-]. exists (take max_idx leaf), (drop (S max_idx) leaf). split.
  - symmetry. by apply take_drop_middle.
  - apply delete_take_drop.
Qed.

Lemma get_most_common_positions_inv node h next_positions h' :
  (board node < length h)%nat →
  get_most_common_positions explorer node h = Ok (next_positions, h') →
  expands node (read h (board node)) h next_positions h'.
Proof.
  intros Hvalid. rewrite get_most_common_positions_unfold. cbv zeta.
  unfold expands, candidates.
  destruct (moves_loop _ _ _) as [next_moves|]; [|done].
  destruct (positions_loop_cases node next_moves [] h Hvalid)
    as [(boards & Hboards & ->)|(? & _ & _ & ->)]; [|done].
  intros [= <- <-]. by exists next_moves, boards.
Qed.

(** What a completed iteration has done. *)
Lemma loop_body_inv st h c st' h' :
  Forall (λ node, (board node < length h)%nat) (leaf_positions st) →
  loop_body explorer repertoire num_positions st h = Ok ((c, st'), h') →
  ∃ before node after,
    leaf_positions st = before ++ node :: after ∧
    let b := read h (board node) in
    match repertoire !! fen b with
    | None =>
        let found := unknown_positions st ++ [node] in
        h' = h ∧
        st' = {| leaf_positions := before ++ after; unknown_positions := found |} ∧
        c = (if Z.of_nat (length found) =? num_positions then Return else Continue)
    | Some move =>
        ∃ next_positions,
          expands node (push b move) (<[board node := push b move]> h) next_positions h' ∧
          st' = {| leaf_positions := (before ++ after) ++ next_positions;
                   unknown_positions := unknown_positions st |} ∧
          c = Continue
    end.
Proof.
  intros Hvalid Hbody.
  destruct (pop_most_probable_node (leaf_positions st)) as [[node rest]|] eqn:Hpop.
  2: { unfold loop_body, bind, lift in Hbody. by rewrite Hpop in Hbody. }
  rewrite (loop_body_unfold _ _ _ _ _ _ _ Hpop) in Hbody.
  destruct (pop_most_probable_node_inv _ _ _ Hpop) as (before & after & Hleaf & ->).
  exists before, node, after. split; [done|]. cbv zeta.
  assert (Hnode : (board node < length h)%nat).
  { rewrite Hleaf in Hvalid. by apply Forall_app in Hvalid as [_ [? _]%Forall_cons_1]. }
  destruct (repertoire !! fen (read h (board node))) as [move|].
  - destruct (get_most_common_positions _ _ _) as [[next_positions h'']|] eqn:Hexp; [|done].
    injection Hbody as <- <- <-.
    exists next_positions. split; [|done].
    apply get_most_common_positions_inv in Hexp; [|by rewrite length_insert].
    by rewrite read_insert in Hexp.
  - by injection Hbody as <- <- <-.
Qed.

(** The lists before the loop. *)
Lemma initial_locals_inv is_black st h :
  initial_locals explorer is_black [] = Ok (st, h) →
  let initial_position := {| board := 0%nat; probability := p_one |} in
  if is_black then
    ∃ next_positions,
      expands initial_position starting_board [starting_board] next_positions h ∧
      st = {| leaf_positions := next_positions; unknown_positions := [] |}
  else
    h = [starting_board] ∧
    st = {| leaf_positions := [initial_position]; unknown_positions := [] |}.
Proof.
  unfold initial_locals, bind, Board_new, alloc, ret. simpl.
  destruct is_black.
  - destruct (get_most_common_positions _ _ _) as [[next_positions h'']|] eqn:Hexp; [|done].
    intros [= <- <-]. exists next_positions. split; [|done].
    by apply get_most_common_positions_inv in Hexp; [|simpl; lia].
  - by intros [= <- <-].
Qed.

(** *** Board objects of the frontier *)

Lemma child_nodes_boards node (first : loc) (next_moves : list (string * P)) :
  board <$> child_nodes node first next_moves = seq first (length next_moves).
Proof.
  apply list_eq. intros i.
  rewrite list_lookup_fmap, child_nodes_lookup.
  destruct (next_moves !! i) as [next_move|] eqn:Hi; simpl.
  - symmetry. apply lookup_seq. split; [done|]. by eapply lookup_lt_Some.
  - symmetry. apply lookup_seq_ge. by apply lookup_ge_None.
Qed.

Lemma separate_remove before node after h :
  separate (before ++ node :: after) h → separate (before ++ after) h.
Proof.
  intros [Hvalid Hnodup]. split.
  - apply Forall_app in Hvalid as [? [_ ?]%Forall_cons_1]. by apply Forall_app.
  - rewrite fmap_app, fmap_cons in Hnodup. rewrite fmap_app.
    apply NoDup_app in Hnodup as (? & Hdisj & [_ ?]%NoDup_cons).
    apply NoDup_app. split_and!; [done| |done].
    intros l Hl Hl'. apply (Hdisj l Hl). by right.
Qed.

Lemma separate_expands (leaf : list (PositionNode P)) node b h next_positions h' :
  separate leaf h → expands node b h next_positions h' →
  separate (leaf ++ next_positions) h'.
Proof.
  intros [Hvalid Hnodup] (next_moves & boards & _ & Hboards & -> & ->).
  pose proof (Forall2_length _ _ _ Hboards) as Hlen. split.
  - apply Forall_app. split.
    + eapply Forall_impl; [done|]. intros ? ?. simpl in *. rewrite length_app. lia.
    + apply Forall_forall. intros child [i Hi]%list_elem_of_lookup.
      rewrite child_nodes_lookup in Hi.
      destruct (next_moves !! i) as [next_move|] eqn:Hmove; [|done].
      injection Hi as <-. simpl. apply lookup_lt_Some in Hmove.
      rewrite length_app. lia.
  - rewrite fmap_app, child_nodes_boards. apply NoDup_app. split_and!; [done| |].
    + intros l Hl [? _]%elem_of_seq.
      apply list_elem_of_fmap in Hl as (other & -> & Hin).
      rewrite Forall_forall in Hvalid. specialize (Hvalid _ Hin). simpl in *. lia.
    + apply NoDup_seq.
Qed.

Lemma separate_insert (leaf : list (PositionNode P)) h (l : loc) b :
  separate leaf h → separate leaf (<[l := b]> h).
Proof. unfold separate. by rewrite length_insert. Qed.

Lemma reaches_separate is_black c st h :
  reaches is_black c st h → separate (leaf_positions st) h.
Proof.
  induction 1 as [st h Hinit|c st h st' h' _ IH _ Hbody].
  - apply initial_locals_inv in Hinit. destruct is_black.
    + destruct Hinit as (next_positions & Hexp & ->).
      eapply (separate_expands []); [|done].
      split; [constructor|apply NoDup_nil_2].
    + destruct Hinit as [-> ->]. split; simpl.
      * apply Forall_singleton. simpl. lia.
      * apply NoDup_singleton.
  - destruct (loop_body_inv _ _ _ _ _ (proj1 IH) Hbody)
      as (before & node & after & Hleaf & Hcases).
    rewrite Hleaf in IH. apply separate_remove in IH. cbv zeta in Hcases.
    destruct (repertoire !! fen (read h (board node))) as [move|].
    + destruct Hcases as (next_positions & Hexp & -> & _). simpl.
      eapply separate_expands; [|done]. by apply separate_insert.
    + by destruct Hcases as (-> & -> & _).
Qed.

(** *** Probabilities of the nodes *)

Lemma candidates_in_unit `{!UnitLaws P} b next_moves :
  counts_within_total → candidates b = Ok next_moves →
  Forall (λ next_move, in_unit next_move.2) next_moves.
Proof.
  intros Hcontract. unfold candidates. rewrite moves_loop_spec.
  specialize (Hcontract (fen b)).
  destruct (moves (explorer (fen b))) as [|move response_moves]; [by intros [= <-]|].
  destruct (total_games (explorer (fen b)) =? 0) eqn:Htotal; [done|].
  intros [= <-]. simpl. unfold relative_moves.
  change (Forall (λ next_move : string * P, in_unit next_move.2)
            ((λ move, (uci move, p_truediv (move_games move) (total_games (explorer (fen b)))))
               <$> move :: response_moves)).
  apply Forall_fmap. eapply Forall_impl; [done|].
  intros m Hm. simpl. apply unit_truediv; [done|]. by apply Z.eqb_neq.
Qed.

Lemma expands_in_unit `{!UnitLaws P} node b h next_positions h' :
  counts_within_total → in_unit (probability node) →
  expands node b h next_positions h' →
  Forall (λ child, in_unit (probability child)) next_positions.
Proof.
  intros Hcontract Hnode (next_moves & boards & Hmoves & _ & -> & _).
  pose proof (candidates_in_unit _ _ Hcontract Hmoves) as Hunit.
  apply Forall_forall. intros child [i Hi]%list_elem_of_lookup.
  rewrite child_nodes_lookup in Hi.
  destruct (next_moves !! i) as [next_move|] eqn:Hmove; [|done].
  injection Hi as <-. simpl. apply unit_mul; [done|].
  rewrite Forall_forall in Hunit. apply Hunit. by eapply list_elem_of_lookup_2.
Qed.


(** *** The number of nodes reported *)

Lemma reaches_found is_black c st h :
  1 ≤ num_positions →
  reaches is_black c st h →
  match c with
  | Continue => Z.of_nat (length (unknown_positions st)) < num_positions
  | Return => Z.of_nat (length (unknown_positions st)) = num_positions
  end.
Proof.
  intros Hk Hrun.
  induction Hrun as [st h Hinit|c st h st' h' Hrun IH _ Hbody].
  - apply initial_locals_inv in Hinit. destruct is_black.
    + destruct Hinit as (? & _ & ->). simpl. lia.
    + destruct Hinit as [_ ->]. simpl. lia.
  - pose proof (reaches_separate _ _ _ _ Hrun) as [Hvalid _].
    destruct (loop_body_inv _ _ _ _ _ Hvalid Hbody)
      as (before & node & after & Hleaf & Hcases).
    cbv zeta in Hcases.
    destruct (repertoire !! fen (read h (board node))) as [move|].
    + by destruct Hcases as (next_positions & _ & -> & ->).
    + destruct Hcases as (_ & -> & ->). simpl.
      destruct (_ =? _) eqn:Heq.
      * by apply Z.eqb_eq in Heq.
      * apply Z.eqb_neq in Heq. rewrite length_app in Heq |- *. simpl in *. lia.
Qed.

(** The loop returns from a state of the run: at the [return] inside the
    loop, or at the loop test with an empty frontier. *)
Lemma while_leaf_positions_reaches is_black fuel : ∀ st h st' h',
  reaches is_black Continue st h →
  while_leaf_positions explorer fuel repertoire num_positions st h = Some (Ok (st', h')) →
  reaches is_black Return st' h' ∨
  (reaches is_black Continue st' h' ∧ leaf_positions st' = []).
Proof.
  induction fuel as [|fuel IH]; intros st h st' h' Hrun; [done|].
  simpl. destruct (leaf_positions st) as [|node leaf] eqn:Hleaf.
  - intros [= <- <-]. by right.
  - destruct (loop_body explorer repertoire num_positions st h)
      as [[[[] st''] h'']|] eqn:Hbody; [| |done].
    + apply IH. eapply reaches_iteration; [done| |done]. by rewrite Hleaf.
    + intros [= <- <-]. left. eapply reaches_iteration; [done| |done]. by rewrite Hleaf.
Qed.
(** *** Runs without an error *)

Lemma scan_keeps_index (leaf : list (PositionNode P)) : ∀ idx max_idx max_probability,
  is_Some max_idx → is_Some (scan idx leaf max_idx max_probability).1.
Proof.
  induction leaf as [|node leaf IH]; intros idx max_idx max_probability Hsome; [done|].
  simpl. destruct (p_gtb _ _); by apply IH.
Qed.

Lemma scan_index_bound (leaf : list (PositionNode P)) : ∀ idx max_idx max_probability i,
  (scan idx leaf max_idx max_probability).1 = Some i →
  max_idx = Some i ∨ (idx ≤ i < idx + length leaf)%nat.
Proof.
  induction leaf as [|node leaf IH]; intros idx max_idx max_probability i; [by left|].
  simpl. destruct (p_gtb _ _); intros [Hi|Hi]%IH.
  - injection Hi as <-. right. lia.
  - right. lia.
  - by left.
  - right. lia.
Qed.

Lemma scan_finds_positive (leaf : list (PositionNode P)) : ∀ idx,
  Exists positive leaf → is_Some (scan idx leaf None p_zero).1.
Proof.
  induction leaf as [|node leaf IH]; intros idx Hex; [by apply Exists_nil in Hex|].
  simpl. destruct (p_gtb (probability node) p_zero) eqn:Hnode.
  - by apply scan_keeps_index.
  - apply IH. apply Exists_cons in Hex as [Hpos|?]; [|done].
    unfold positive in Hpos. congruence.
Qed.

(** The selection finds a node as soon as one node is positive. *)
Lemma pop_most_probable_node_succeeds (leaf : list (PositionNode P)) :
  Exists positive leaf → ∃ node rest, pop_most_probable_node leaf = Ok (node, rest).
Proof.
  intros Hex. unfold pop_most_probable_node.
  destruct (scan_finds_positive leaf 0 Hex) as [i Hi]. rewrite Hi.
  apply scan_index_bound in Hi as [?|Hi]; [done|].
  destruct (lookup_lt_is_Some_2 leaf i) as [node Hnode]; [lia|].
  rewrite Hnode. eauto.
Qed.

Lemma candidates_playable b :
  answers_playable →
  candidates b =
    Ok (relative_moves (total_games (explorer (fen b))) (moves (explorer (fen b)))).
Proof.
  intros Hplay. unfold candidates. rewrite moves_loop_spec.
  destruct (Hplay b) as [_ Htotal].
  destruct (moves (explorer (fen b))) as [|move response_moves]; [done|].
  destruct (_ =? _) eqn:Hzero; [|done].
  apply Z.eqb_eq in Hzero. specialize (Htotal ltac:(done)). lia.
Qed.

Lemma get_most_common_positions_playable node h :
  answers_playable → (board node < length h)%nat →
  ∃ next_positions h', get_most_common_positions explorer node h = Ok (next_positions, h').
Proof.
  intros Hplay Hvalid. rewrite get_most_common_positions_unfold. cbv zeta.
  pose proof (candidates_playable (read h (board node)) Hplay) as Hmoves.
  unfold candidates in Hmoves. rewrite Hmoves.
  destruct (positions_loop_cases node
              (relative_moves (total_games (explorer (fen (read h (board node)))))
                 (moves (explorer (fen (read h (board node)))))) [] h Hvalid)
    as [(boards & _ & ->)|(bad & Hin & Hbad & _)]; [eauto|].
  apply list_elem_of_fmap in Hin as (move & -> & Hin).
  destruct (Hplay (read h (board node))) as [Hall _].
  rewrite Forall_forall in Hall. destruct (Hall move Hin) as [_ [? Hparse]].
  simpl in Hbad. congruence.
Qed.

Lemma expands_positive `{!PositiveLaws P} node b h next_positions h' :
  answers_playable → positive node →
  expands node b h next_positions h' →
  Forall positive next_positions.
Proof.
  intros Hplay Hnode (next_moves & boards & Hmoves & _ & -> & _).
  rewrite (candidates_playable b Hplay) in Hmoves. injection Hmoves as <-.
  destruct (Hplay b) as [Hall Htotal].
  apply Forall_forall. intros child [i Hi]%list_elem_of_lookup.
  rewrite child_nodes_lookup in Hi.
  destruct (relative_moves _ _ !! i) as [next_move|] eqn:Hmove; [|done].
  injection Hi as <-. unfold positive. simpl. apply positive_mul; [done|].
  apply list_elem_of_lookup_2, list_elem_of_fmap in Hmove as (move & -> & Hin).
  rewrite Forall_forall in Hall. destruct (Hall move Hin) as [Hgames _]. simpl.
  apply positive_truediv; [done|]. apply Htotal. by intros Hnil; rewrite Hnil in Hin;
    apply elem_of_nil in Hin.
Qed.

Lemma reaches_positive `{!PositiveLaws P} is_black c st h :
  answers_playable → reaches is_black c st h → Forall positive (leaf_positions st).
Proof.
  intros Hplay Hrun.
  induction Hrun as [st h Hinit|c st h st' h' Hrun IH _ Hbody].
  - apply initial_locals_inv in Hinit. destruct is_black.
    + destruct Hinit as (next_positions & Hexp & ->). simpl.
      eapply expands_positive; [done| |done]. apply positive_one.
    + destruct Hinit as [-> ->]. simpl. apply Forall_singleton, positive_one.
  - pose proof (reaches_separate _ _ _ _ Hrun) as [Hvalid _].
    destruct (loop_body_inv _ _ _ _ _ Hvalid Hbody)
      as (before & node & after & Hleaf & Hcases).
    rewrite Hleaf in IH. cbv zeta in Hcases.
    apply Forall_app in IH as [Hbefore [Hnode Hafter]%Forall_cons_1].
    destruct (repertoire !! fen (read h (board node))) as [move|].
    + destruct Hcases as (next_positions & Hexp & -> & _). simpl.
      repeat (apply Forall_app; split); try done.
      by eapply expands_positive.
    + destruct Hcases as (-> & -> & _). simpl. by apply Forall_app.
Qed.

(** With a playable explorer and positive probabilities, an iteration
    completes. *)
Lemma loop_body_succeeds `{!PositiveLaws P} is_black st h :
  answers_playable →
  reaches is_black Continue st h → leaf_positions st ≠ [] →
  ∃ c st' h', loop_body explorer repertoire num_positions st h = Ok ((c, st'), h').
Proof.
  intros Hplay Hrun Hleaf.
  pose proof (reaches_positive _ _ _ _ Hplay Hrun) as Hpos.
  pose proof (reaches_separate _ _ _ _ Hrun) as [Hvalid _].
  destruct (pop_most_probable_node_succeeds (leaf_positions st)) as (node & rest & Hpop).
  { destruct (leaf_positions st) as [|node leaf]; [done|].
    apply Exists_cons_hd. by apply Forall_cons_1 in Hpos as [? _]. }
  rewrite (loop_body_unfold _ _ _ _ _ _ _ Hpop).
  destruct (repertoire !! fen (read h (board node))) as [move|]; [|eauto].
  destruct (get_most_common_positions_playable node
              (<[board node := push (read h (board node)) move]> h) Hplay)
    as (next_positions & h' & ->); [|eauto].
  rewrite length_insert.
  destruct (pop_most_probable_node_inv _ _ _ Hpop) as (before & after & Heq & _).
  rewrite Heq in Hvalid. by apply Forall_app in Hvalid as [_ [? _]%Forall_cons_1].
Qed.
Lemma initial_locals_succeeds is_black :
  answers_playable → ∃ st h, initial_locals (P := P) explorer is_black [] = Ok (st, h).
Proof.
  intros Hplay. unfold initial_locals, bind, Board_new, alloc, ret. simpl.
  destruct is_black; [|eauto].
  destruct (get_most_common_positions_playable
              {| board := 0%nat; probability := p_one |} [starting_board] Hplay)
    as (next_positions & h & ->); [simpl; lia|eauto].
Qed.
End Run.

(** ** Termination of the search *)

Section Termination.
Context {P : Type} {arith : Arith P} {lib : Chess} {ply_count : PlyCount}.
Context (explorer : string → Response) (repertoire : gmap string Move) (num_positions : Z).
Implicit Types (node : PositionNode P) (h : heap) (st : locals P) (b : Board).
Local Abbreviation replies := (replies explorer).
Local Abbreviation cost := (cost explorer repertoire).
Local Abbreviation depth_bound := (depth_bound repertoire).
Local Abbreviation weight := (weight explorer repertoire).
Local Abbreviation potential := (potential explorer repertoire).

Lemma covered_depth b move :
  repertoire !! fen b = Some move → (plies (fen b) < depth_bound)%nat.
Proof.
  intros Hlookup. unfold depth_bound. apply Nat.lt_succ_r, max_list_elem_of_le.
  apply list_elem_of_fmap. exists (fen b). split; [done|].
  apply list_elem_of_fmap. exists (fen b, move). split; [done|].
  by apply elem_of_map_to_list.
Qed.

Lemma list_sum_le {A} (f g : A → nat) (l : list A) :
  Forall (λ x, (f x ≤ g x)%nat) l → (list_sum (f <$> l) ≤ list_sum (g <$> l))%nat.
Proof.
  induction 1 as [|x l Hx _ IH]; [done|]. rewrite !fmap_cons. simpl. lia.
Qed.

Lemma cost_succ budget : ∀ b, (cost budget b ≤ cost (S budget) b)%nat.
Proof.
  induction budget as [|budget IH]; intros b; [simpl; lia|].
  change (cost (S (S budget)) b) with
    (S (match repertoire !! fen b with
        | Some move => list_sum (cost (S budget) <$> replies (push b move))
        | None => 0%nat
        end)).
  simpl. destruct (repertoire !! fen b) as [move|]; [|lia].
  apply le_n_S, list_sum_le, Forall_forall. intros b' _. apply IH.
Qed.

Lemma cost_mono budget budget' b :
  (budget ≤ budget')%nat → (cost budget b ≤ cost budget' b)%nat.
Proof.
  induction 1 as [|budget' _ IH]; [done|]. etrans; [exact IH|apply cost_succ].
Qed.

Lemma cost_pos budget b : (1 ≤ cost budget b)%nat.
Proof. destruct budget; simpl; lia. Qed.

Lemma candidates_ucis b next_moves :
  candidates explorer b = Ok next_moves →
  next_moves.*1 = uci <$> moves (explorer (fen b)).
Proof.
  unfold candidates. rewrite moves_loop_spec.
  destruct (moves (explorer (fen b))) as [|move response_moves]; [by intros [= <-]|].
  destruct (_ =? _); [done|]. intros [= <-]. simpl. f_equal.
  unfold relative_moves. rewrite <-list_fmap_compose. done.
Qed.

Lemma replies_boards b next_moves (boards : list Board) :
  candidates explorer b = Ok next_moves →
  Forall2 (λ next_move b', pushed_uci b next_move.1 = Some b') next_moves boards →
  replies b = boards.
Proof.
  intros Hucis%candidates_ucis Hboards. unfold replies.
  revert Hucis. generalize (moves (explorer (fen b))) as response_moves.
  induction Hboards as [|next_move b' next_moves boards Hpush _ IH];
    intros [|move response_moves]; try done.
  rewrite !fmap_cons. intros [= Huci Hucis]. simpl.
  rewrite <-Huci, Hpush. f_equal. by apply IH.
Qed.

Lemma potential_app (leaf1 leaf2 : list (PositionNode P)) h :
  potential (leaf1 ++ leaf2) h = (potential leaf1 h + potential leaf2 h)%nat.
Proof. unfold potential. by rewrite fmap_app, list_sum_app. Qed.

(** The nodes left in the frontier keep their boards through an iteration. *)
Lemma potential_frame (leaf : list (PositionNode P)) h (l : loc) b (boards : list Board) :
  Forall (λ node, (board node < length h)%nat ∧ board node ≠ l) leaf →
  potential leaf (<[l := b]> h ++ boards) = potential leaf h.
Proof.
  intros Hleaf. unfold potential. f_equal. apply Forall_fmap_ext.
  eapply Forall_impl; [done|]. intros node [Hvalid Hne]. unfold weight, read.
  rewrite lookup_app_l by (by rewrite length_insert).
  by rewrite list_lookup_insert_ne.
Qed.

(** The children refer to the new boards, in order. *)
Lemma potential_children node h (next_moves : list (string * P)) (boards : list Board) :
  length next_moves = length boards →
  potential (child_nodes node (length h) next_moves) (h ++ boards) =
    list_sum ((λ b', cost (depth_bound - plies (fen b')) b') <$> boards).
Proof.
  intros Hlen. unfold potential. f_equal. apply list_eq. intros i.
  rewrite !list_lookup_fmap, child_nodes_lookup.
  destruct (next_moves !! i) as [next_move|] eqn:Hmove.
  - destruct (lookup_lt_is_Some_2 boards i) as [b' Hb'].
    { rewrite <-Hlen. by eapply lookup_lt_Some. }
    rewrite Hb'. simpl. unfold weight, read. simpl.
    rewrite lookup_app_r by lia.
    replace (length h + i - length h)%nat with i by lia. by rewrite Hb'.
  - apply lookup_ge_None in Hmove. rewrite Hlen in Hmove.
    apply lookup_ge_None in Hmove. by rewrite Hmove.
Qed.

(** Every completed iteration lowers the potential of the frontier. *)
Lemma loop_body_potential st h c st' h' :
  separate (leaf_positions st) h →
  loop_body explorer repertoire num_positions st h = Ok ((c, st'), h') →
  (potential (leaf_positions st') h' < potential (leaf_positions st) h)%nat.
Proof.
  intros [Hvalid Hnodup] Hbody.
  destruct (loop_body_inv _ _ _ _ _ _ _ _ Hvalid Hbody)
    as (before & node & after & Hleaf & Hcases).
  rewrite Hleaf in Hvalid, Hnodup |- *. cbv zeta in Hcases.
  rewrite potential_app. unfold potential at 3. rewrite fmap_cons. simpl.
  fold (potential after h).
  pose proof (cost_pos (depth_bound - plies (fen (read h (board node))))
                (read h (board node))) as Hpos.
  fold (weight h node) in Hpos.
  destruct (repertoire !! fen (read h (board node))) as [move|] eqn:Hcovered.
  - destruct Hcases as (next_positions & Hexp & -> & _). simpl.
    destruct Hexp as (next_moves & boards & Hmoves & Hboards & -> & ->).
    rewrite potential_app, potential_frame.
    2: { rewrite fmap_app, fmap_cons in Hnodup.
         apply NoDup_app in Hnodup as (_ & Hdisj & [Hnotin _]%NoDup_cons).
         apply Forall_app in Hvalid as [Hb [_ Ha]%Forall_cons_1].
         apply Forall_app. split.
         - apply Forall_forall. intros other Hin. split.
           + rewrite Forall_forall in Hb. by apply Hb.
           + intros Heq. apply (Hdisj (board other)).
             * apply list_elem_of_fmap. by exists other.
             * rewrite Heq. by left.
         - apply Forall_forall. intros other Hin. split.
           + rewrite Forall_forall in Ha. by apply Ha.
           + intros Heq. apply Hnotin. rewrite <-Heq.
             apply list_elem_of_fmap. by exists other. }
    rewrite potential_app, potential_children by (by eapply Forall2_length).
    pose proof (covered_depth _ _ Hcovered) as Hdepth.
    assert (weight h node =
              S (list_sum (cost (depth_bound - plies (fen (read h (board node))) - 1)
                             <$> boards))) as ->.
    { unfold weight.
      replace (depth_bound - plies (fen (read h (board node))))%nat
        with (S (depth_bound - plies (fen (read h (board node))) - 1)) at 1 by lia.
      simpl. rewrite Hcovered. by erewrite replies_boards. }
    enough (list_sum ((λ b', cost (depth_bound - plies (fen b')) b') <$> boards)
            ≤ list_sum (cost (depth_bound - plies (fen (read h (board node))) - 1)
                          <$> boards))%nat by lia.
    apply list_sum_le, Forall_forall. intros b' [i Hi]%list_elem_of_lookup.
    destruct (Forall2_lookup_r _ _ _ _ _ Hboards Hi) as (next_move & _ & Hpush).
    unfold pushed_uci in Hpush.
    destruct (parse_uci _ _) as [reply|]; [|done]. injection Hpush as <-.
    apply cost_mono. rewrite !plies_push. lia.
  - destruct Hcases as (-> & -> & _). simpl. rewrite potential_app. lia.
Qed.

(** From a state of a run, the loop ends within the fuel given by the
    potential. *)
Lemma while_leaf_positions_ends is_black fuel : ∀ st h,
  reaches explorer repertoire num_positions is_black Continue st h →
  (potential (leaf_positions st) h < fuel)%nat →
  while_leaf_positions explorer fuel repertoire num_positions st h ≠ None.
Proof.
  induction fuel as [|fuel IH]; intros st h Hrun Hfuel; [lia|].
  simpl. destruct (leaf_positions st) as [|node leaf] eqn:Hleaf; [done|].
  destruct (loop_body explorer repertoire num_positions st h)
    as [[[[] st'] h']|] eqn:Hbody; [|done..].
  apply IH.
  - eapply reaches_iteration; [done| |done]. by rewrite Hleaf.
  - pose proof (reaches_separate _ _ _ _ _ _ _ Hrun) as Hsep.
    pose proof (loop_body_potential _ _ _ _ _ Hsep Hbody). rewrite Hleaf in *. lia.
Qed.
(** With a playable explorer and positive probabilities, the loop returns. *)
Lemma while_leaf_positions_returns `{!PositiveLaws P} is_black fuel : ∀ st h,
  answers_playable explorer →
  reaches explorer repertoire num_positions is_black Continue st h →
  (potential (leaf_positions st) h < fuel)%nat →
  ∃ st' h',
    while_leaf_positions explorer fuel repertoire num_positions st h = Some (Ok (st', h')).
Proof.
  induction fuel as [|fuel IH]; intros st h Hplay Hrun Hfuel; [lia|].
  simpl. destruct (leaf_positions st) as [|node leaf] eqn:Hleaf; [eauto|].
  destruct (loop_body_succeeds explorer repertoire num_positions is_black st h Hplay Hrun)
    as (c & st' & h' & Hbody); [by rewrite Hleaf|].
  rewrite Hbody. destruct c; [|eauto].
  apply IH; [done| |].
  - eapply reaches_iteration; [done| |done]. by rewrite Hleaf.
  - pose proof (reaches_separate _ _ _ _ _ _ _ Hrun) as Hsep.
    pose proof (loop_body_potential _ _ _ _ _ Hsep Hbody). rewrite Hleaf in *. lia.
Qed.
End Termination.

(** ** The size of the result *)

Section Search.
Context {P : Type} {arith : Arith P} {lib : Chess} {ply_count : PlyCount}.
Context (explorer : string → Response).

Lemma Repertoire_ends (games : list GameNode) is_black : Repertoire games is_black ≠ None.
Proof.
  unfold Repertoire.
  by destruct (index_games_spec is_black games ∅) as [(? & _ & _ & ->)|(_ & ? & -> & _)].
Qed.

(** C1 (for a request of at least one position). The call ends. When it
    returns a list rather than raising an error, the list has exactly the
    requested number of nodes, or fewer when the frontier was empty at the
    loop test; it never has more. And it does return a list when no node of
    the repertoire has two variations, every answer of the explorer is
    playable and the arithmetic keeps probabilities above 0. *)
Theorem get_most_common_unknown_positions_size
    (games : list GameNode) (is_black : bool) (num_positions : Z) :
  1 ≤ num_positions →
  (∃ fuel,
     get_most_common_unknown_positions (P := P) explorer fuel games is_black num_positions
       ≠ None) ∧
  (∀ fuel found h,
     get_most_common_unknown_positions explorer fuel games is_black num_positions
       = Some (Ok (found, h)) →
     ∃ st,
       search explorer fuel games is_black num_positions = Some (Ok (st, h)) ∧
       unknown_positions st = found ∧
       (Z.of_nat (length found) = num_positions ∨
        (Z.of_nat (length found) < num_positions ∧ leaf_positions st = []))) ∧
  (PositiveLaws P → answers_playable explorer →
   Forall (λ entry, ¬ conflicting entry) (positions_to_move_in games is_black) →
   ∃ fuel found h,
     get_most_common_unknown_positions explorer fuel games is_black num_positions
       = Some (Ok (found, h))).
Proof using ply_count.
  intros Hk. unfold get_most_common_unknown_positions, search.
  destruct (index_games_spec is_black games ∅)
    as [(entry & Hin & Hc & Hindex)|(_ & repertoire & Hindex & _)];
    unfold Repertoire; rewrite Hindex.
  { split_and!; [by exists O|by intros fuel found h|].
    intros _ _ Hall. rewrite Forall_forall in Hall. by destruct (Hall entry Hin). }
  destruct (initial_locals explorer is_black []) as [[st0 h0]|e] eqn:Hinit.
  2: { split_and!; [by exists O|by intros fuel found h|].
       intros _ Hplay _.
       destruct (initial_locals_succeeds explorer is_black Hplay) as (? & ? & Hok).
       congruence. }
  pose proof (reaches_initial explorer repertoire num_positions is_black _ _ Hinit) as Hrun.
  split_and!.
  - exists (S (potential explorer repertoire (leaf_positions st0) h0)).
    pose proof (while_leaf_positions_ends explorer repertoire num_positions is_black
                  _ _ _ Hrun (Nat.lt_succ_diag_r _)) as Hends.
    by destruct (while_leaf_positions _ _ _ _ _ _) as [[[??]|?]|].
  - intros fuel found h.
    destruct (while_leaf_positions _ _ _ _ _ _) as [[[st h']|?]|] eqn:Hloop; try done.
    intros [= <- <-]. exists st. split; [done|]. split; [done|].
    destruct (while_leaf_positions_reaches _ _ _ _ _ _ _ _ _ Hrun Hloop)
      as [Hret|[Hcont Hempty]].
    + left. exact (reaches_found _ _ _ _ _ _ _ Hk Hret).
    + right. split; [|done]. exact (reaches_found _ _ _ _ _ _ _ Hk Hcont).
  - intros Hlaws Hplay _.
    exists (S (potential explorer repertoire (leaf_positions st0) h0)).
    destruct (while_leaf_positions_returns explorer repertoire num_positions is_black
                _ _ _ Hplay Hrun (Nat.lt_succ_diag_r _)) as (st & h & ->).
    eauto.
Qed.
End Search.

(** ** The small model counts plies *)

Lemma toy_plies_fen (b : list string) : Toy.toy_plies (Toy.toy_fen b) = length b.
Proof.
  unfold Toy.toy_fen. induction (length b) as [|n IH]; [done|].
  simpl. by rewrite IH.
Qed.

#[global] Instance toy_ply_count : PlyCount (lib := Toy.chess).
Proof.
  refine {| plies := Toy.toy_plies |}.
  intros b move. simpl. rewrite !toy_plies_fen, length_app. simpl. lia.
Defined.

(** ** Examples of runs *)

(** The scenario of the design document: the repertoire [1. d4 d5 2. c4]
    for White, one position requested. The start is covered by [d4]; of
    Black's replies, [d5] (5 games of 10) is covered and [Nf6] (3 of 10) is
    not, and the search returns the position after [1. d4 Nf6]. *)
Example search_queens_gambit :
  get_most_common_unknown_positions (P := float) Examples.openings 10
    [Toy.line ["d2d4"; "d7d5"; "c2c4"]] false 1
  = Some (Ok ([ {| board := 2%nat; probability := p_truediv 3 10 |} ],
              [ ["d2d4"]; ["d2d4"; "d7d5"; "c2c4"]; ["d2d4"; "g8f6"];
                ["d2d4"; "d7d5"; "c2c4"; "e7e6"]; ["d2d4"; "d7d5"; "c2c4"; "c7c6"] ])).
Proof. vm_compute. reflexivity. Qed.

Lemma get_most_common_unknown_positions_size_witness :
  (∃ fuel,
     get_most_common_unknown_positions (P := Qc) Examples.openings fuel
       [Toy.line ["d2d4"; "d7d5"; "c2c4"]] false 1 ≠ None) ∧
  (∀ fuel found h,
     get_most_common_unknown_positions (P := Qc) Examples.openings fuel
       [Toy.line ["d2d4"; "d7d5"; "c2c4"]] false 1 = Some (Ok (found, h)) →
     ∃ st,
       search (P := Qc) Examples.openings fuel [Toy.line ["d2d4"; "d7d5"; "c2c4"]] false 1
         = Some (Ok (st, h)) ∧
       unknown_positions st = found ∧
       (Z.of_nat (length found) = 1 ∨
        (Z.of_nat (length found) < 1 ∧ leaf_positions st = []))) ∧
  (PositiveLaws Qc → answers_playable Examples.openings →
   Forall (λ entry, ¬ conflicting entry)
     (positions_to_move_in [Toy.line ["d2d4"; "d7d5"; "c2c4"]] false) →
   ∃ fuel found h,
     get_most_common_unknown_positions (P := Qc) Examples.openings fuel
       [Toy.line ["d2d4"; "d7d5"; "c2c4"]] false 1 = Some (Ok (found, h))).
Proof.
  apply (get_most_common_unknown_positions_size (ply_count := toy_ply_count)
           Examples.openings [Toy.line ["d2d4"; "d7d5"; "c2c4"]] false 1).
  lia.
Defined.

(** A request for no position at all is never met: the length of the result
    is compared with the request only after a node has been added. *)
Lemma get_most_common_unknown_positions_size_counterexample :
  ∃ found h,
    get_most_common_unknown_positions (P := float) Examples.openings 10 [] false 0
      = Some (Ok (found, h)) ∧
    0 < Z.of_nat (length found).
Proof. eexists _, _. split; [by vm_compute|]. simpl. lia. Qed.



(** * Further properties *)

(** ** What the selection does on any list *)

Section SelectionOutcome.
Context {P : Type} {arith : Arith P} {lib : Chess}.
Implicit Types (node : PositionNode P) (leaf rest : list (PositionNode P)).

Lemma scan_none leaf : ∀ idx,
  Forall (λ node, ¬ positive node) leaf →
  scan idx leaf None p_zero = (None, p_zero).
Proof.
  induction leaf as [|node leaf IH]; intros idx Hall; [done|].
  apply Forall_cons_1 in Hall as [Hnode Hall]. simpl.
  unfold positive in Hnode. apply not_true_is_false in Hnode. rewrite Hnode.
  by apply IH.
Qed.

(** The two outcomes of the selection, by whether the list has a node of
    probability above 0. *)
Lemma pop_most_probable_node_cases leaf :
  match pop_most_probable_node leaf with
  | Ok (node, rest) =>
      Exists positive leaf ∧
      ∃ before after, leaf = before ++ node :: after ∧ rest = before ++ after
  | Raise e => e = AssertionError ∧ Forall (λ node, ¬ positive node) leaf
  end.
Proof.
  assert (Hdec : ∀ node, Decision (positive node)).
  { intros node. unfold positive. apply _. }
  destruct (decide (Exists positive leaf)) as [Hex|Hnone].
  - destruct (pop_most_probable_node_succeeds leaf Hex) as (node & rest & Hpop).
    rewrite Hpop. split; [done|]. by apply pop_most_probable_node_inv.
  - apply not_Exists_Forall in Hnone; [|done].
    unfold pop_most_probable_node. by rewrite scan_none.
Qed.

(** X14. The call fails exactly when no node of the list has a probability above
    0, the empty list included, and then with the error of the assertion, never
    with an index out of range. It succeeds exactly when some node has a
    probability above 0; it has then removed one node and kept the others in
    their order. *)
Theorem pop_most_probable_node_outcome leaf :
  (pop_most_probable_node leaf = Raise AssertionError ↔
     Forall (λ node, ¬ positive node) leaf) ∧
  (∀ e, pop_most_probable_node leaf = Raise e → e = AssertionError) ∧
  ((∃ node rest, pop_most_probable_node leaf = Ok (node, rest)) ↔ Exists positive leaf) ∧
  (∀ node rest, pop_most_probable_node leaf = Ok (node, rest) →
     ∃ before after, leaf = before ++ node :: after ∧ rest = before ++ after).
Proof.
  pose proof (pop_most_probable_node_cases leaf) as Hcases.
  destruct (pop_most_probable_node leaf) as [[node rest]|e].
  - destruct Hcases as [Hex Hsplit]. split_and!.
    + split; [done|]. intros Hnone. apply Exists_exists in Hex as (node' & Hin & Hpos).
      rewrite Forall_forall in Hnone. by destruct (Hnone node' Hin).
    + done.
    + split; [done|]. intros _. by exists node, rest.
    + by intros ? ? [= <- <-].
  - destruct Hcases as [-> Hnone]. split_and!.
    + done.
    + by intros ? [= <-].
    + split; [by intros (? & ? & ?)|].
      intros (node' & Hin & Hpos)%Exists_exists.
      rewrite Forall_forall in Hnone. by destruct (Hnone node' Hin).
    + done.
Qed.
End SelectionOutcome.

Section Steps.
Context {P : Type} {arith : Arith P} {lib : Chess}.
Context (explorer : string → Response) (repertoire : gmap string Move) (num_positions : Z).
Implicit Types (node : PositionNode P) (h : heap) (st : locals P) (c : control).
Local Abbreviation reaches := (reaches explorer repertoire num_positions).

Lemma separate_perm (leaf leaf' : list (PositionNode P)) h :
  leaf ≡ₚ leaf' → separate leaf h → separate leaf' h.
Proof.
  intros Hperm [Hvalid Hnodup]. split; [by rewrite <-Hperm|].
  by rewrite <-Hperm.
Qed.

(** The nodes of the frontier and the nodes reported refer to board objects
    that exist, no two of them to the same one. *)
Lemma reaches_separate_all is_black c st h :
  reaches is_black c st h → separate (leaf_positions st ++ unknown_positions st) h.
Proof.
  induction 1 as [st h Hinit|c st h st' h' Hrun IH _ Hbody].
  - pose proof (reaches_separate _ _ _ _ _ _ _ (reaches_initial explorer repertoire num_positions is_black _ _ Hinit)) as Hsep.
    apply initial_locals_inv in Hinit.
    destruct is_black.
    + destruct Hinit as (? & _ & ->). simpl in *. by rewrite app_nil_r.
    + destruct Hinit as [_ ->]. simpl in *. done.
  - pose proof (reaches_separate _ _ _ _ _ _ _ Hrun) as [Hvalid _].
    destruct (loop_body_inv _ _ _ _ _ _ _ _ Hvalid Hbody)
      as (before & node & after & Hleaf & Hcases).
    rewrite Hleaf in IH. cbv zeta in Hcases.
    destruct (repertoire !! fen (read h (board node))) as [move|].
    + destruct Hcases as (next_positions & Hexp & -> & _). simpl.
      apply (separate_perm (((before ++ after) ++ unknown_positions st) ++ next_positions)).
      { rewrite <-!app_assoc. do 2 f_equiv. apply Permutation_app_comm. }
      eapply separate_expands; [|done]. apply separate_insert.
      rewrite <-app_assoc in IH |- *.
      by apply (separate_remove before node (after ++ unknown_positions st)).
    + destruct Hcases as (-> & -> & _). simpl.
      eapply separate_perm; [|done].
      rewrite <-!app_assoc. f_equiv. simpl.
      rewrite (app_assoc after). apply Permutation_cons_append.
Qed.

(** What a completed iteration has done to the boards: the popped node's
    board is the only object that may have changed. *)
Lemma reaches_step is_black st h c st' h' :
  reaches is_black Continue st h →
  loop_body explorer repertoire num_positions st h = Ok ((c, st'), h') →
  ∃ before node after,
    leaf_positions st = before ++ node :: after ∧
    pop_most_probable_node (leaf_positions st) = Ok (node, before ++ after) ∧
    (board node < length h)%nat ∧
    (∀ other, other ∈ before ++ after ++ unknown_positions st →
       (board other < length h)%nat ∧ read h' (board other) = read h (board other)) ∧
    let b := read h (board node) in
    match repertoire !! fen b with
    | None =>
        h' = h ∧
        st' = {| leaf_positions := before ++ after;
                 unknown_positions := unknown_positions st ++ [node] |} ∧
        c = (if Z.of_nat (length (unknown_positions st ++ [node])) =? num_positions
             then Return else Continue)
    | Some move =>
        ∃ next_moves boards,
          candidates explorer (push b move) = Ok next_moves ∧
          Forall2 (λ next_move b', pushed_uci (push b move) next_move.1 = Some b')
            next_moves boards ∧
          h' = <[board node := push b move]> h ++ boards ∧
          st' = {| leaf_positions :=
                     (before ++ after) ++ child_nodes node (length h) next_moves;
                   unknown_positions := unknown_positions st |} ∧
          c = Continue
    end.
Proof.
  intros Hrun Hbody.
  pose proof (reaches_separate_all _ _ _ _ Hrun) as [Hvalid Hnodup].
  destruct (pop_most_probable_node (leaf_positions st)) as [[node rest]|] eqn:Hpop.
  2: { unfold loop_body, bind, lift in Hbody. by rewrite Hpop in Hbody. }
  destruct (pop_most_probable_node_inv _ _ _ Hpop) as (before & after & Hleaf & ->).
  rewrite (loop_body_unfold _ _ _ _ _ _ _ Hpop) in Hbody.
  rewrite Hleaf in Hvalid, Hnodup.
  assert (Hnode : (board node < length h)%nat).
  { by apply Forall_app in Hvalid as [[_ [? _]%Forall_cons_1]%Forall_app _]. }
  assert (Hothers : ∀ other, other ∈ before ++ after ++ unknown_positions st →
            (board other < length h)%nat ∧ board other ≠ board node).
  { intros other Hin. split.
    - rewrite Forall_forall in Hvalid. apply Hvalid.
      rewrite !elem_of_app, elem_of_cons. rewrite !elem_of_app in Hin. tauto.
    - assert (Hnodup' : NoDup (board <$> before ++
                                  node :: (after ++ unknown_positions st))).
      { by rewrite <-app_assoc in Hnodup. }
      rewrite fmap_app, fmap_cons in Hnodup'.
      apply NoDup_app in Hnodup' as (_ & Hdisj & [Hnotin _]%NoDup_cons).
      intros Heq. apply elem_of_app in Hin as [Hin|Hin].
      + apply (Hdisj (board other)); [by apply list_elem_of_fmap_2|].
        rewrite Heq. by left.
      + apply Hnotin. rewrite <-Heq. by apply list_elem_of_fmap_2. }
  exists before, node, after. split; [done|]. split; [done|]. split; [done|].
  cbv zeta. destruct (repertoire !! fen (read h (board node))) as [move|].
  - destruct (get_most_common_positions _ _ _) as [[next_positions h'']|] eqn:Hexp; [|done].
    injection Hbody as <- <- <-.
    apply get_most_common_positions_inv in Hexp; [|by rewrite length_insert].
    rewrite read_insert in Hexp by done.
    destruct Hexp as (next_moves & boards & Hmoves & Hboards & -> & ->).
    rewrite length_insert. split.
    + intros other [Hother Hne]%Hothers. split; [done|].
      rewrite read_app_l by (by rewrite length_insert).
      unfold read. by rewrite list_lookup_insert_ne.
    + by exists next_moves, boards.
  - injection Hbody as <- <- <-. split; [|done].
    intros other [? _]%Hothers. done.
Qed.
End Steps.

Section Coverage.
Context {P : Type} {arith : Arith P} {lib : Chess}.
Context (explorer : string → Response) (repertoire : gmap string Move) (num_positions : Z).
Implicit Types (node : PositionNode P) (h : heap) (st : locals P) (c : control) (b : Board).
Local Abbreviation reaches := (reaches explorer repertoire num_positions).
Local Abbreviation below := (below explorer repertoire).
Local Abbreviation seed := (seed explorer).
Local Abbreviation gap := (gap explorer repertoire).
Local Abbreviation reply_of := (reply_of explorer).

Lemma below_snoc b0 p0 b p move b' p' :
  below b0 p0 b p → repertoire !! fen b = Some move →
  reply_of (push b move) p b' p' → below b0 p0 b' p'.
Proof.
  induction 1 as [b p|b0 p0 move0 b1 p1 b p Hcov Hreply _ IH]; intros Hmove Hnext.
  - eapply below_reply; [done..|]. apply below_here.
  - eapply below_reply; [done..|]. by apply IH.
Qed.

(** The children of a node are the replies to its board, each on the board
    object created for it. *)
Lemma child_nodes_replies node b h (next_moves : list (string * P)) (boards : list Board) :
  candidates explorer b = Ok next_moves →
  Forall2 (λ next_move b', pushed_uci b next_move.1 = Some b') next_moves boards →
  (∀ child, child ∈ child_nodes node (length h) next_moves →
     reply_of b (probability node) (read (h ++ boards) (board child)) (probability child)) ∧
  (∀ b' p', reply_of b (probability node) b' p' →
     ∃ child, child ∈ child_nodes node (length h) next_moves ∧
       read (h ++ boards) (board child) = b' ∧ probability child = p').
Proof.
  intros Hmoves Hboards. split.
  - intros child [i Hi]%list_elem_of_lookup. rewrite child_nodes_lookup in Hi.
    destruct (next_moves !! i) as [next_move|] eqn:Hmove; [|done].
    injection Hi as <-. simpl.
    destruct (Forall2_lookup_l _ _ _ _ _ Hboards Hmove) as (b' & Hb' & Hpush).
    exists next_moves, next_move. split_and!; try done.
    + by eapply list_elem_of_lookup_2.
    + rewrite Hpush. f_equal. unfold read. rewrite lookup_app_r by lia.
      replace (length h + i - length h)%nat with i by lia. by rewrite Hb'.
  - intros b' p' (next_moves' & next_move & Hmoves' & [i Hi]%list_elem_of_lookup & Hpush & ->).
    rewrite Hmoves in Hmoves'. injection Hmoves' as <-.
    destruct (Forall2_lookup_l _ _ _ _ _ Hboards Hi) as (b'' & Hb'' & Hpush').
    rewrite Hpush in Hpush'. injection Hpush' as <-.
    exists {| board := (length h + i)%nat;
              probability := p_mul (probability node) next_move.2 |}.
    split_and!; [|simpl|done].
    + apply list_elem_of_lookup. exists i. by rewrite child_nodes_lookup, Hi.
    + unfold read. rewrite lookup_app_r by lia.
      replace (length h + i - length h)%nat with i by lia. by rewrite Hb''.
Qed.

(** Every node of a state is a position of the tree, with the probability
    the tree gives it; the nodes reported are gaps. *)
Lemma reaches_sound is_black c st h :
  reaches is_black c st h →
  Forall (λ node, ∃ b0 p0, seed is_black b0 p0 ∧
            below b0 p0 (read h (board node)) (probability node)) (leaf_positions st) ∧
  Forall (λ node, gap is_black (read h (board node)) (probability node))
    (unknown_positions st).
Proof.
  induction 1 as [st h Hinit|c st h st' h' Hrun IH _ Hbody].
  - apply initial_locals_inv in Hinit. destruct is_black.
    + destruct Hinit as (? & (next_moves & boards & Hmoves & Hboards & -> & ->) & ->). simpl.
      split; [|constructor].
      apply Forall_forall. intros child Hin.
      destruct (child_nodes_replies {| board := 0%nat; probability := p_one |}
                  starting_board [starting_board] next_moves boards Hmoves Hboards)
        as [Hchild _].
      eexists _, _. split; [by apply Hchild|]. apply below_here.
    + destruct Hinit as [-> ->]. simpl. split; [|constructor].
      apply Forall_singleton. exists starting_board, p_one. split; [done|]. apply below_here.
  - destruct IH as [IHleaf IHfound].
    destruct (reaches_step _ _ _ _ _ _ _ _ _ Hrun Hbody)
      as (before & node & after & Hleaf & _ & Hnode & Hframe & Hcases).
    rewrite Hleaf in IHleaf. cbv zeta in Hcases.
    assert (Hkeep : ∀ other, other ∈ before ++ after ++ unknown_positions st →
              read h' (board other) = read h (board other)).
    { intros other Hin. by apply Hframe. }
    apply Forall_app in IHleaf as [IHbefore [IHnode IHafter]%Forall_cons_1].
    assert (Hrest : Forall (λ node, ∃ b0 p0, seed is_black b0 p0 ∧
                       below b0 p0 (read h' (board node)) (probability node))
                      (before ++ after)).
    { apply Forall_forall. intros other Hin. rewrite Hkeep.
      - apply elem_of_app in Hin as [Hin|Hin].
        + rewrite Forall_forall in IHbefore. by apply IHbefore.
        + rewrite Forall_forall in IHafter. by apply IHafter.
      - rewrite elem_of_app in Hin. rewrite !elem_of_app. tauto. }
    assert (Hfound : Forall (λ node, gap is_black (read h' (board node)) (probability node))
                       (unknown_positions st)).
    { apply Forall_forall. intros other Hin. rewrite Hkeep.
      - rewrite Forall_forall in IHfound. by apply IHfound.
      - rewrite !elem_of_app. tauto. }
    destruct (repertoire !! fen (read h (board node))) as [move|] eqn:Hcovered.
    + destruct Hcases as (next_moves & boards & Hmoves & Hboards & Hh' & -> & _). simpl.
      split; [|done]. apply Forall_app. split; [done|].
      apply Forall_forall. intros child Hin.
      destruct (child_nodes_replies node (push (read h (board node)) move)
                  (<[board node := push (read h (board node)) move]> h)
                  next_moves boards Hmoves Hboards) as [Hchild _].
      rewrite length_insert in Hchild. specialize (Hchild child Hin).
      rewrite <-Hh' in Hchild.
      destruct IHnode as (b0 & p0 & Hseed & Hbelow).
      exists b0, p0. split; [done|]. by eapply below_snoc.
    + destruct Hcases as (-> & -> & _). simpl. split; [done|].
      apply Forall_app. split; [done|]. apply Forall_singleton.
      destruct IHnode as (b0 & p0 & Hseed & Hbelow). by exists b0, p0.
Qed.

(** Every gap of the tree is reported or lies below a node of the
    frontier. *)
Lemma reaches_covers is_black c st h :
  reaches is_black c st h →
  ∀ b p, gap is_black b p →
    (∃ node, node ∈ unknown_positions st ∧
       read h (board node) = b ∧ probability node = p) ∨
    (∃ node, node ∈ leaf_positions st ∧
       below (read h (board node)) (probability node) b p).
Proof.
  induction 1 as [st h Hinit|c st h st' h' Hrun IH _ Hbody]; intros b p Hgap.
  - right. destruct Hgap as (b0 & p0 & Hseed & Hbelow & _).
    apply initial_locals_inv in Hinit. destruct is_black.
    + destruct Hinit as (? & (next_moves & boards & Hmoves & Hboards & -> & ->) & ->). simpl.
      destruct (child_nodes_replies {| board := 0%nat; probability := p_one |}
                  starting_board [starting_board] next_moves boards Hmoves Hboards)
        as [_ Hreply].
      destruct (Hreply b0 p0 Hseed) as (child & Hin & <- & <-). by exists child.
    + destruct Hinit as [-> ->]. destruct Hseed as [-> ->]. simpl.
      eexists. split; [by left|]. done.
  - destruct (reaches_step _ _ _ _ _ _ _ _ _ Hrun Hbody)
      as (before & node & after & Hleaf & _ & Hnode & Hframe & Hcases).
    cbv zeta in Hcases.
    assert (Hkeep : ∀ other, other ∈ before ++ after ++ unknown_positions st →
              read h' (board other) = read h (board other)).
    { intros other Hin. by apply Hframe. }
    assert (Hold :
      (∃ other, other ∈ unknown_positions st' ∧
         read h' (board other) = b ∧ probability other = p) ∨
      (∃ other, other ∈ leaf_positions st' ∧
         below (read h' (board other)) (probability other) b p) ∨
      below (read h (board node)) (probability node) b p).
    { destruct (IH b p Hgap) as [(other & Hin & Hb & Hp)|(other & Hin & Hbelow)].
      - left. exists other. rewrite Hkeep by (rewrite !elem_of_app; tauto).
        split; [|done].
        destruct (repertoire !! fen (read h (board node))).
        + by destruct Hcases as (? & ? & _ & _ & _ & -> & _).
        + destruct Hcases as (_ & -> & _). simpl. apply elem_of_app. by left.
      - rewrite Hleaf, elem_of_app, elem_of_cons in Hin.
        destruct Hin as [Hin|[->|Hin]]; [|by right; right|].
        all: right; left; exists other.
        all: rewrite Hkeep by (rewrite !elem_of_app; tauto).
        all: split; [|done].
        all: destruct (repertoire !! fen (read h (board node))).
        all: try (destruct Hcases as (? & ? & _ & _ & _ & -> & _); simpl;
                  rewrite !elem_of_app; tauto).
        all: destruct Hcases as (_ & -> & _); simpl; rewrite elem_of_app; tauto. }
    destruct Hold as [?|[?|Hbelow]]; [by left|by right|].
    destruct (repertoire !! fen (read h (board node))) as [move|] eqn:Hcovered.
    + destruct Hcases as (next_moves & boards & Hmoves & Hboards & Hh' & -> & _). simpl.
      right. inversion Hbelow as [|? ? move' b' p' ? ? Hcov Hreply Hrest]; subst.
      { destruct Hgap as (_ & _ & _ & _ & Hnone). congruence. }
      rewrite Hcovered in Hcov. injection Hcov as <-.
      destruct (child_nodes_replies node (push (read h (board node)) move)
                  (<[board node := push (read h (board node)) move]> h)
                  next_moves boards Hmoves Hboards) as [_ Hchild].
      rewrite length_insert in Hchild.
      destruct (Hchild b' p' Hreply) as (child & Hin & <- & <-).
      exists child. rewrite elem_of_app. split; [by right|done].
    + destruct Hcases as (-> & -> & _). simpl. left.
      inversion Hbelow as [|? ? move' b' p' ? ? Hcov Hreply Hrest]; subst.
      * exists node. rewrite elem_of_app, list_elem_of_singleton. auto.
      * congruence.
Qed.

(** At the [return] inside the loop, the list has the requested length,
    which is 1 or more. *)
Lemma reaches_return is_black st h :
  reaches is_black Return st h →
  Z.of_nat (length (unknown_positions st)) = num_positions ∧ 1 ≤ num_positions.
Proof.
  inversion 1 as [|c st0 h0 ? ? Hrun _ Hbody]; subst.
  destruct (reaches_step _ _ _ _ _ _ _ _ _ Hrun Hbody)
    as (before & node & after & _ & _ & _ & _ & Hcases).
  cbv zeta in Hcases.
  destruct (repertoire !! fen (read h0 (board node))) as [move|].
  - by destruct Hcases as (? & ? & _ & _ & _ & _ & ?).
  - destruct Hcases as (_ & -> & Hc). simpl.
    destruct (_ =? _) eqn:Heq; [|done]. apply Z.eqb_eq in Heq.
    rewrite length_app in Heq |- *. simpl in *. lia.
Qed.
End Coverage.

Section Results.
Context {P : Type} {arith : Arith P} {lib : Chess}.
Context (explorer : string → Response).
Implicit Types (node : PositionNode P) (h : heap) (st : locals P).

(** A call that returns a list has built the index and left the loop from
    a state of the run: at the [return] inside the loop, or at the loop test
    with an empty frontier. *)
Lemma get_most_common_unknown_positions_inv fuel games is_black num_positions found h :
  get_most_common_unknown_positions explorer fuel games is_black num_positions
    = Some (Ok (found, h)) →
  ∃ repertoire st,
    Repertoire games is_black = Some (Ok repertoire) ∧
    unknown_positions st = found ∧
    (reaches explorer repertoire num_positions is_black Return st h ∨
     (reaches explorer repertoire num_positions is_black Continue st h ∧
      leaf_positions st = [])).
Proof.
  unfold get_most_common_unknown_positions, search.
  destruct (Repertoire games is_black) as [[repertoire|?]|]; [|done..].
  destruct (initial_locals explorer is_black []) as [[st0 h0]|] eqn:Hinit; [|done].
  destruct (while_leaf_positions _ _ _ _ _ _) as [[[st h']|?]|] eqn:Hloop; try done.
  intros [= <- <-]. exists repertoire, st. split; [done|]. split; [done|].
  eapply while_leaf_positions_reaches; [|done]. by apply reaches_initial.
Qed.
End Results.

Section SelectionMax.
Context {P : Type} {arith : Arith P} {order : Ordered P} {lib : Chess}.
Implicit Types (node : PositionNode P) (leaf rest : list (PositionNode P)).

(** The node selected has a probability above 0, and no node left in the
    list has a larger one. *)
Lemma pop_most_probable_node_max leaf node rest :
  Forall (λ node, comparable (probability node)) leaf →
  pop_most_probable_node leaf = Ok (node, rest) →
  positive node ∧ Forall (λ node', not_above node' node) rest.
Proof.
  intros Hcomp.
  pose proof (scan_scanned leaf [] None p_zero Hcomp) as Hscan.
  unfold pop_most_probable_node. simpl in Hscan.
  destruct (scan 0 leaf None p_zero) as [[idx|] max_probability]; simpl in *; [|done].
  destruct Hscan as (before & node0 & after & -> & -> & _ & Hpos & Hbefore & Hafter).
  { split; [done|]. apply Forall_nil_2. }
  rewrite list_lookup_middle, delete_middle by done.
  intros [= <- <-]. split; [done|]. apply Forall_app. split; [|done].
  eapply Forall_impl; [exact Hbefore|]. intros node' Habove. by apply gtb_asym.
Qed.
End SelectionMax.

Section Ranking.
Context {lib : Chess}.
Context (explorer : string → Response) (repertoire : gmap string Move) (num_positions : Z).
Implicit Types (node : PositionNode Qc) (h : heap) (st : locals Qc) (b : Board) (p : Qc).

Lemma not_above_exact node' node :
  not_above node' node ↔ (probability node' ≤ probability node)%Qc.
Proof.
  unfold not_above. cbn. rewrite bool_decide_eq_false.
  split; [apply Qcnot_lt_le|apply Qcle_not_lt].
Qed.

Lemma positive_exact node : positive node ↔ (0 < probability node)%Qc.
Proof. unfold positive. cbn. by rewrite bool_decide_eq_true. Qed.

Lemma in_unit_exact p : in_unit p ↔ (0 ≤ p ∧ p ≤ 1)%Qc.
Proof.
  unfold in_unit. cbn. rewrite !bool_decide_eq_false.
  split; intros [H0 H1]; split; try by apply Qcnot_lt_le.
  all: by apply Qcle_not_lt.
Qed.

(** A reply is not more probable than the position it replies to. *)
Lemma reply_of_le b p b' p' :
  counts_within_total explorer → (0 ≤ p)%Qc →
  reply_of explorer b p b' p' → (0 ≤ p' ∧ p' ≤ p)%Qc.
Proof.
  intros Hcontract Hp (next_moves & next_move & Hmoves & Hin & _ & ->).
  pose proof (candidates_in_unit explorer _ _ Hcontract Hmoves) as Hunit.
  rewrite Forall_forall in Hunit. apply Hunit, in_unit_exact in Hin as [H0 H1].
  cbn. split.
  - by apply Qcmult_nonneg_nonneg.
  - rewrite <-(Qcmult_1_r p) at 2. rewrite !(Qcmult_comm p).
    by apply Qcmult_le_compat_r.
Qed.

Lemma below_le b p b' p' :
  counts_within_total explorer → (0 ≤ p)%Qc →
  below explorer repertoire b p b' p' → (p' ≤ p)%Qc.
Proof.
  intros Hcontract Hp Hbelow.
  induction Hbelow as [b p|b p move b1 p1 b' p' _ Hreply _ IH]; [done|].
  destruct (reply_of_le _ _ _ _ Hcontract Hp Hreply) as [H0 H1].
  etrans; [by apply IH|done].
Qed.

(** In every state of a run, no node of the frontier is more probable than
    a node already reported, and the nodes reported are in the order of their
    probabilities, the largest first. *)
Lemma reaches_ranked is_black c st h :
  counts_within_total explorer →
  reaches explorer repertoire num_positions is_black c st h →
  Forall (λ node, (0 ≤ probability node)%Qc) (leaf_positions st) ∧
  (∀ node f, node ∈ leaf_positions st → f ∈ unknown_positions st →
     (probability node ≤ probability f)%Qc) ∧
  (∀ (i j : nat) f g, (i < j)%nat →
     unknown_positions st !! i = Some f → unknown_positions st !! j = Some g →
     (probability g ≤ probability f)%Qc).
Proof.
  intros Hcontract.
  induction 1 as [st h Hinit|c st h st' h' Hrun IH _ Hbody].
  - apply initial_locals_inv in Hinit. destruct is_black.
    + destruct Hinit as (? & (next_moves & boards & Hmoves & Hboards & -> & ->) & ->). simpl.
      split_and!.
      * apply Forall_forall. intros child Hin.
        destruct (child_nodes_replies explorer {| board := 0%nat; probability := p_one |}
                    starting_board [starting_board] next_moves boards Hmoves Hboards)
          as [Hchild _].
        by eapply (reply_of_le _ 1%Qc), Hchild.
      * intros node f _ Hin. by apply elem_of_nil in Hin.
      * intros i j f g _ Hf. by rewrite lookup_nil in Hf.
    + destruct Hinit as [-> ->]. simpl. split_and!.
      * by apply Forall_singleton.
      * intros node f _ Hin. by apply elem_of_nil in Hin.
      * intros i j f g _ Hf. by rewrite lookup_nil in Hf.
  - destruct IH as (IHpos & IHle & IHsorted).
    destruct (reaches_step _ _ _ _ _ _ _ _ _ Hrun Hbody)
      as (before & node & after & Hleaf & Hpop & Hnode & _ & Hcases).
    destruct (pop_most_probable_node_max (leaf_positions st) node (before ++ after))
      as [Hpositive Hmax]; [|done|].
    { apply Forall_forall. by intros. }
    apply positive_exact in Hpositive.
    rewrite Hleaf in IHpos, IHle. cbv zeta in Hcases.
    assert (Hrest : Forall (λ node, (0 ≤ probability node)%Qc) (before ++ after)).
    { apply Forall_app in IHpos as [? [_ ?]%Forall_cons_1]. by apply Forall_app. }
    assert (Hrest_le : ∀ other f, other ∈ before ++ after → f ∈ unknown_positions st →
              (probability other ≤ probability f)%Qc).
    { intros other f Hin Hf. apply IHle; [|done].
      rewrite elem_of_app, elem_of_cons. rewrite elem_of_app in Hin. tauto. }
    assert (Hnode_le : ∀ f, f ∈ unknown_positions st →
              (probability node ≤ probability f)%Qc).
    { intros f Hf. apply IHle; [|done]. rewrite elem_of_app, elem_of_cons. tauto. }
    destruct (repertoire !! fen (read h (board node))) as [move|].
    + destruct Hcases as (next_moves & boards & Hmoves & Hboards & _ & -> & _). simpl.
      destruct (child_nodes_replies explorer node (push (read h (board node)) move)
                  (<[board node := push (read h (board node)) move]> h)
                  next_moves boards Hmoves Hboards) as [Hchild _].
      rewrite length_insert in Hchild.
      assert (Hchildren : ∀ child, child ∈ child_nodes node (length h) next_moves →
                (0 ≤ probability child ∧ probability child ≤ probability node)%Qc).
      { intros child Hin. eapply reply_of_le; [done| |by apply Hchild].
        by apply Qclt_le_weak. }
      split_and!; [|intros other f [Hin|Hin]%elem_of_app Hf|done].
      * apply Forall_app. split; [done|]. apply Forall_forall.
        intros child Hin. by apply Hchildren.
      * by apply Hrest_le.
      * etrans; [by apply Hchildren|by apply Hnode_le].
    + destruct Hcases as (_ & -> & _). simpl. split_and!; [done| |].
      * intros other f Hin [Hf|Hf%list_elem_of_singleton]%elem_of_app.
        -- by apply Hrest_le.
        -- subst f. rewrite Forall_forall in Hmax. by apply not_above_exact, Hmax.
      * intros i j f g Hij Hf Hg.
        destruct (decide (j < length (unknown_positions st))%nat) as [Hj|Hj].
        -- rewrite lookup_app_l in Hf, Hg by lia. exact (IHsorted i j f g Hij Hf Hg).
        -- assert (i < length (unknown_positions st))%nat as Hi.
           { apply lookup_lt_Some in Hg. rewrite length_app in Hg. simpl in Hg. lia. }
           rewrite lookup_app_l in Hf by done.
           rewrite lookup_app_r in Hg by lia.
           apply list_lookup_singleton_Some in Hg as [_ <-].
           apply Hnode_le. by eapply list_elem_of_lookup_2.
Qed.
End Ranking.

Section SearchResults.
Context {P : Type} {arith : Arith P} {lib : Chess}.
Context (explorer : string → Response).
Implicit Types (node : PositionNode P) (h : heap) (st : locals P).

(** X1. Every node of the list returned is a gap of the repertoire: its board
    is a position of the tree that the repertoire's moves and the explorer's
    replies span from the start, its probability is the product of the relative
    probabilities of the replies on the way, and the index has no move for it.
    No two nodes share a board object. *)
Theorem reported_positions_are_gaps fuel games is_black num_positions found h :
  get_most_common_unknown_positions explorer fuel games is_black num_positions
    = Some (Ok (found, h)) →
  ∃ repertoire,
    Repertoire games is_black = Some (Ok repertoire) ∧
    NoDup (board <$> found) ∧
    Forall (λ node, (board node < length h)%nat ∧
              gap explorer repertoire is_black (read h (board node)) (probability node))
      found.
Proof.
  intros (repertoire & st & Hindex & <- & Hrun)%get_most_common_unknown_positions_inv.
  exists repertoire. split; [done|].
  assert (∃ c, reaches explorer repertoire num_positions is_black c st h) as [c Hreach].
  { destruct Hrun as [?|[? _]]; eauto. }
  destruct (reaches_separate_all _ _ _ _ _ _ _ Hreach) as [Hvalid Hnodup].
  destruct (reaches_sound _ _ _ _ _ _ _ Hreach) as [_ Hgaps].
  apply Forall_app in Hvalid as [_ Hvalid].
  rewrite fmap_app in Hnodup. apply NoDup_app in Hnodup as (_ & _ & Hnodup).
  split; [done|]. rewrite Forall_forall in Hvalid, Hgaps |- *. auto.
Qed.

(** X2. When the list returned does not have the requested length, or when no
    position at all was requested, the search has gone through the whole tree:
    every gap of the repertoire is in the list. *)
Theorem exhausted_search_reports_every_gap fuel games is_black num_positions found h :
  get_most_common_unknown_positions explorer fuel games is_black num_positions
    = Some (Ok (found, h)) →
  Z.of_nat (length found) ≠ num_positions ∨ num_positions ≤ 0 →
  ∃ repertoire,
    Repertoire games is_black = Some (Ok repertoire) ∧
    ∀ b p, gap explorer repertoire is_black b p →
      ∃ node, node ∈ found ∧ read h (board node) = b ∧ probability node = p.
Proof.
  intros (repertoire & st & Hindex & <- & Hrun)%get_most_common_unknown_positions_inv Hlen.
  exists repertoire. split; [done|].
  destruct Hrun as [Hret|[Hrun Hempty]].
  { apply reaches_return in Hret. lia. }
  intros b p Hgap.
  destruct (reaches_covers _ _ _ _ _ _ _ Hrun b p Hgap) as [?|(node & Hin & _)]; [done|].
  rewrite Hempty in Hin. by apply elem_of_nil in Hin.
Qed.
End SearchResults.

Section ExactResults.
Context {lib : Chess}.
Context (explorer : string → Response).
Implicit Types (node : PositionNode Qc) (h : heap).

(** X3. In exact arithmetic, and with an explorer that gives no move more games
    than its position, the list returned is in the order of the probabilities,
    the most probable node first. *)
Theorem reported_most_probable_first fuel games is_black num_positions found h
    (i j : nat) f g :
  counts_within_total explorer →
  get_most_common_unknown_positions explorer fuel games is_black num_positions
    = Some (Ok (found, h)) →
  (i < j)%nat → found !! i = Some f → found !! j = Some g →
  (probability g ≤ probability f)%Qc.
Proof.
  intros Hcontract (repertoire & st & _ & <- & Hrun)%get_most_common_unknown_positions_inv.
  assert (∃ c, reaches explorer repertoire num_positions is_black c st h) as [c Hreach].
  { destruct Hrun as [?|[? _]]; eauto. }
  destruct (reaches_ranked _ _ _ _ _ _ _ Hcontract Hreach) as (_ & _ & Hsorted).
  apply Hsorted.
Qed.

(** X4. In exact arithmetic, and with an explorer that gives no move more games
    than its position, the list returned holds the most probable gaps: a gap of
    the repertoire that is not in the list is not more probable than any node
    of the list, and the list then has the requested length. *)
Theorem reported_are_most_probable fuel games is_black num_positions found h :
  counts_within_total explorer →
  get_most_common_unknown_positions explorer fuel games is_black num_positions
    = Some (Ok (found, h)) →
  ∃ repertoire,
    Repertoire games is_black = Some (Ok repertoire) ∧
    ∀ b p, gap explorer repertoire is_black b p →
      (∃ node, node ∈ found ∧ read h (board node) = b ∧ probability node = p) ∨
      (Z.of_nat (length found) = num_positions ∧
       ∀ node, node ∈ found → (p ≤ probability node)%Qc).
Proof.
  intros Hcontract (repertoire & st & Hindex & <- & Hrun)%get_most_common_unknown_positions_inv.
  exists repertoire. split; [done|]. intros b p Hgap.
  assert (∃ c, reaches explorer repertoire num_positions is_black c st h) as [c Hreach].
  { destruct Hrun as [?|[? _]]; eauto. }
  destruct (reaches_covers _ _ _ _ _ _ _ Hreach b p Hgap)
    as [?|(above & Hin & Hbelow)]; [by left|].
  right. destruct Hrun as [Hret|[_ Hempty]].
  2: { rewrite Hempty in Hin. by apply elem_of_nil in Hin. }
  split; [by eapply reaches_return|].
  destruct (reaches_ranked _ _ _ _ _ _ _ Hcontract Hreach) as (Hpos & Hle & _).
  intros node Hnode. etrans; [|by apply (Hle above node)].
  eapply below_le; [done| |done].
  rewrite Forall_forall in Hpos. by apply Hpos.
Qed.
End ExactResults.

Lemma openings_counts_within_total : counts_within_total Examples.openings.
Proof.
  intros position. unfold Examples.openings.
  repeat case_decide; simpl;
    repeat (apply Forall_cons_2; [unfold move_games, total_games; simpl; lia|]);
    apply Forall_nil_2.
Qed.

Lemma reported_positions_are_gaps_witness :
  ∃ repertoire,
    Repertoire Runs.queens_gambit_games false = Some (Ok repertoire) ∧
    NoDup (board <$> [Runs.after_nf6; Runs.after_e6]) ∧
    Forall (λ node, (board node < length Runs.final_boards)%nat ∧
              gap Examples.openings repertoire false
                (read Runs.final_boards (board node)) (probability node))
      [Runs.after_nf6; Runs.after_e6].
Proof.
  apply (reported_positions_are_gaps (lib := Toy.chess) Examples.openings 10
           Runs.queens_gambit_games false 2).
  vm_compute. reflexivity.
Defined.

Lemma exhausted_search_reports_every_gap_witness :
  ∃ repertoire,
    Repertoire Runs.queens_gambit_games false = Some (Ok repertoire) ∧
    ∀ b p, gap Examples.openings repertoire false b p →
      ∃ node, node ∈ [Runs.after_nf6; Runs.after_e6; Runs.after_c6] ∧
        read Runs.final_boards (board node) = b ∧ probability node = p.
Proof.
  apply (exhausted_search_reports_every_gap (lib := Toy.chess) Examples.openings 10
           Runs.queens_gambit_games false 5).
  - vm_compute. reflexivity.
  - left. simpl. lia.
Defined.

Lemma reported_most_probable_first_witness :
  (probability Runs.after_e6 ≤ probability Runs.after_nf6)%Qc.
Proof.
  apply (reported_most_probable_first (lib := Toy.chess) Examples.openings 10
           Runs.queens_gambit_games false 2
           [Runs.after_nf6; Runs.after_e6] Runs.final_boards 0 1).
  - apply openings_counts_within_total.
  - vm_compute. reflexivity.
  - lia.
  - reflexivity.
  - reflexivity.
Defined.

Lemma reported_are_most_probable_witness :
  ∃ repertoire,
    Repertoire Runs.queens_gambit_games false = Some (Ok repertoire) ∧
    ∀ b p, gap Examples.openings repertoire false b p →
      (∃ node, node ∈ [Runs.after_nf6; Runs.after_e6] ∧
         read Runs.final_boards (board node) = b ∧ probability node = p) ∨
      (Z.of_nat (length [Runs.after_nf6; Runs.after_e6]) = 2 ∧
       ∀ node, node ∈ [Runs.after_nf6; Runs.after_e6] →
         (p ≤ probability node)%Qc).
Proof.
  apply (reported_are_most_probable (lib := Toy.chess) Examples.openings 10
           Runs.queens_gambit_games false 2).
  - apply openings_counts_within_total.
  - vm_compute. reflexivity.
Defined.

(** ** The side to move *)

Section SideToMove.
Context {lib : Chess} {ply_count : PlyCount}.
Hypothesis plies_start : plies (fen starting_board) = 0%nat.
Implicit Types (board : Board) (response_map : gmap string Move).

Lemma odd_plies_push2 board move reply :
  Nat.odd (plies (fen (push (push board move) reply))) = Nat.odd (plies (fen board)).
Proof. rewrite !plies_push. apply Nat.odd_succ_succ. Qed.

Lemma index_nodes_side (side : bool) fuel : ∀ pgn_nodes response_map response_map',
  Forall (λ entry, Nat.odd (plies (fen entry.1)) = side) pgn_nodes →
  (∀ position move, response_map !! position = Some move → Nat.odd (plies position) = side) →
  index_nodes fuel pgn_nodes response_map = Some (Ok response_map') →
  ∀ position move, response_map' !! position = Some move → Nat.odd (plies position) = side.
Proof.
  induction fuel as [|fuel IH]; intros pgn_nodes response_map response_map' Hnodes Hmap;
    [done|].
  destruct (decide (pgn_nodes = [])) as [->|Hne].
  { by intros [= <-]. }
  apply last_is_Some in Hne as [[board node] Hlast].
  apply last_Some in Hlast as [rest ->].
  rewrite index_nodes_snoc.
  apply Forall_app in Hnodes as [Hrest [Hboard _]%Forall_cons_1]. simpl in Hboard.
  destruct (variations node) as [|[move variation0] [|??]]; [by apply IH| |done].
  apply IH.
  - apply Forall_app. split; [done|]. unfold with_boards.
    apply Forall_forall. intros entry (v & -> & _)%list_elem_of_fmap. simpl.
    by rewrite odd_plies_push2.
  - intros position move' Hlookup.
    destruct (decide (fen board = position)) as [<-|Hother]; [done|].
    rewrite lookup_insert_ne in Hlookup by done. by eapply Hmap.
Qed.

Lemma index_games_side is_black games : ∀ response_map response_map',
  (∀ position move, response_map !! position = Some move →
     Nat.odd (plies position) = is_black) →
  index_games games is_black response_map = Some (Ok response_map') →
  ∀ position move, response_map' !! position = Some move →
    Nat.odd (plies position) = is_black.
Proof using plies_start.
  induction games as [|game games IH]; intros response_map response_map' Hmap.
  { by intros [= <-]. }
  cbn [index_games]. cbv zeta.
  destruct (index_nodes _ _ _) as [[response_map1|]|] eqn:Hnodes; [|done..].
  apply IH. eapply index_nodes_side; [|done..].
  unfold initial_nodes. destruct is_black.
  - unfold with_boards.
    apply Forall_forall. intros entry (v & -> & _)%list_elem_of_fmap. simpl.
    by rewrite plies_push, plies_start.
  - apply Forall_singleton. simpl. by rewrite plies_start.
Qed.


Section SideOfGaps.
Context {P : Type} {arith : Arith P}.
Context (explorer : string → Response).
Implicit Types (b : Board) (p : P) (repertoire : gmap string Move).

Lemma reply_of_plies b p b' p' :
  reply_of explorer b p b' p' → plies (fen b') = S (plies (fen b)).
Proof.
  intros (_ & next_move & _ & _ & Hpush & _). unfold pushed_uci in Hpush.
  destruct (parse_uci b next_move.1) as [reply|]; [|done].
  injection Hpush as <-. apply plies_push.
Qed.

Lemma below_side repertoire b p b' p' :
  below explorer repertoire b p b' p' →
  Nat.odd (plies (fen b')) = Nat.odd (plies (fen b)).
Proof.
  induction 1 as [|b p move b1 p1 b' p' _ Hreply _ IH]; [done|].
  rewrite IH, (reply_of_plies _ _ _ _ Hreply), plies_push. apply Nat.odd_succ_succ.
Qed.

Lemma gap_side repertoire is_black b p :
  gap explorer repertoire is_black b p → Nat.odd (plies (fen b)) = is_black.
Proof using plies_start.
  intros (b0 & p0 & Hseed & Hbelow & _). rewrite (below_side _ _ _ _ _ Hbelow).
  destruct is_black; simpl in Hseed.
  - by rewrite (reply_of_plies _ _ _ _ Hseed), plies_start.
  - destruct Hseed as [-> _]. by rewrite plies_start.
Qed.

(** X8. At every position of the list returned, the side of the repertoire is
    to move. *)
Theorem reported_positions_side_to_move fuel games is_black num_positions found h :
  get_most_common_unknown_positions (P := P) explorer fuel games is_black num_positions
    = Some (Ok (found, h)) →
  Forall (λ node, Nat.odd (plies (fen (read h (board node)))) = is_black) found.
Proof using plies_start.
  intros (repertoire & st & _ & <- & Hrun)%get_most_common_unknown_positions_inv.
  assert (∃ c, reaches explorer repertoire num_positions is_black c st h) as [c Hreach].
  { destruct Hrun as [?|[? _]]; eauto. }
  destruct (reaches_sound _ _ _ _ _ _ _ Hreach) as [_ Hgaps].
  eapply Forall_impl; [exact Hgaps|]. intros node Hgap. exact (gap_side _ _ _ _ Hgap).
Qed.
End SideOfGaps.
End SideToMove.

(** ** Chapters of a file *)

Section Chapters.
Context {lib : Chess}.
Implicit Types (response_map : gmap string Move) (games : list GameNode).

(** The loops only add to the map they are given. *)
Lemma index_nodes_extends fuel : ∀ pgn_nodes response_map,
  index_nodes fuel pgn_nodes response_map =
    match index_nodes fuel pgn_nodes ∅ with
    | Some (Ok response_map') => Some (Ok (response_map' ∪ response_map))
    | r => r
    end.
Proof.
  induction fuel as [|fuel IH]; intros pgn_nodes response_map; [done|].
  simpl. destruct (last pgn_nodes) as [[board node]|].
  2: { by rewrite (left_id_L ∅ (∪)). }
  destruct (1 <? length (variations node))%nat; [done|].
  destruct (variations node) as [|[move variation0] ?]; [apply IH|].
  rewrite (IH _ (<[fen board := move]> response_map)), (IH _ (<[fen board := move]> ∅)).
  destruct (index_nodes fuel _ ∅) as [[response_map'|]|]; [|done..].
  do 2 f_equal. rewrite insert_empty, <-(assoc_L (∪)).
  by rewrite <-insert_union_singleton_l.
Qed.

Lemma index_games_extends is_black games : ∀ response_map,
  index_games games is_black response_map =
    match index_games games is_black ∅ with
    | Some (Ok response_map') => Some (Ok (response_map' ∪ response_map))
    | r => r
    end.
Proof.
  induction games as [|game games IH]; intros response_map.
  { simpl. by rewrite (left_id_L ∅ (∪)). }
  cbn [index_games]. cbv zeta.
  rewrite (index_nodes_extends _ _ response_map).
  destruct (index_nodes _ _ ∅) as [[response_map1|]|]; [|done..].
  rewrite (IH (response_map1 ∪ response_map)), (IH response_map1).
  destruct (index_games games is_black ∅) as [[response_map2|]|]; [|done..].
  by rewrite (assoc_L (∪)).
Qed.

Lemma index_games_app is_black games1 games2 : ∀ response_map,
  index_games (games1 ++ games2) is_black response_map =
    match index_games games1 is_black response_map with
    | Some (Ok response_map1) => index_games games2 is_black response_map1
    | r => r
    end.
Proof.
  induction games1 as [|game games1 IH]; intros response_map; [done|].
  rewrite <-app_comm_cons. cbn [index_games]. cbv zeta.
  destruct (index_nodes _ _ _) as [[response_map1|]|]; [|done..].
  apply IH.
Qed.

(** X11. The games of a file are indexed one after the other into one map: the
    index of two lists of games is the union of their indexes, in which a
    position of both has the move of the later game; an error in the first
    list is raised before the second is read. *)
Theorem Repertoire_app games1 games2 is_black :
  Repertoire (games1 ++ games2) is_black =
    match Repertoire games1 is_black with
    | Some (Ok response_map1) =>
        match Repertoire games2 is_black with
        | Some (Ok response_map2) => Some (Ok (response_map2 ∪ response_map1))
        | r => r
        end
    | r => r
    end.
Proof.
  unfold Repertoire. rewrite index_games_app.
  destruct (index_games games1 is_black ∅) as [[response_map1|]|]; [|done..].
  apply index_games_extends.
Qed.

End Chapters.

(** ** A move that python-chess rejects *)

Section Rejected.
Context {P : Type} {arith : Arith P} {lib : Chess} (explorer : string → Response).
Implicit Types (position : PositionNode P) (h : heap).

Lemma positions_loop_rejected position (good : list (string * P)) bad rest :
  ∀ next_positions h,
  (board position < length h)%nat →
  Forall (λ next_move, is_Some (parse_uci (read h (board position)) next_move.1)) good →
  parse_uci (read h (board position)) bad.1 = None →
  positions_loop position (good ++ bad :: rest) next_positions h
    = Raise (IllegalMoveError bad.1).
Proof.
  induction good as [|next_move good IH]; intros next_positions h Hvalid Hgood Hbad.
  - simpl app. rewrite positions_loop_cons. by rewrite Hbad.
  - apply Forall_cons_1 in Hgood as [[move Hmove] Hgood].
    rewrite <-app_comm_cons, positions_loop_cons, Hmove.
    assert (Hread : read (h ++ [push (read h (board position)) move]) (board position)
                    = read h (board position)) by (by apply read_app_l).
    apply IH.
    + rewrite length_app. lia.
    + by rewrite Hread.
    + by rewrite Hread.
Qed.

(** X16. When python-chess rejects a move that the explorer lists, the expansion
    raises the error of the first such move, whatever the moves after it. *)
Theorem get_most_common_positions_rejected_move position h good bad rest :
  (board position < length h)%nat →
  moves (explorer (fen (read h (board position)))) = good ++ bad :: rest →
  total_games (explorer (fen (read h (board position)))) ≠ 0 →
  Forall (λ move, is_Some (parse_uci (read h (board position)) (uci move))) good →
  parse_uci (read h (board position)) (uci bad) = None →
  get_most_common_positions explorer position h = Raise (IllegalMoveError (uci bad)).
Proof.
  intros Hvalid Hmoves Htotal Hgood Hbad.
  rewrite get_most_common_positions_unfold. cbv zeta.
  set (total := total_games (explorer (fen (read h (board position))))) in *.
  assert (Hrel : moves_loop total (good ++ bad :: rest) []
            = Ok (((λ move, (uci move, p_truediv (move_games move) total)) <$> good) ++
                  (uci bad, p_truediv (move_games bad) total) :: relative_moves total rest)).
  { rewrite moves_loop_spec. apply Z.eqb_neq in Htotal. rewrite Htotal.
    unfold relative_moves. rewrite map_app. by destruct good. }
  rewrite Hmoves, Hrel.
  apply (positions_loop_rejected position _ (_, _)); [done| |done].
  apply Forall_fmap. eapply Forall_impl; [exact Hgood|]. done.
Qed.
End Rejected.

(** ** A repertoire without a move for the start *)

Section UncoveredStart.
Context {P : Type} {arith : Arith P} {lib : Chess} (explorer : string → Response).

(** X9. For White, when the index has no move for the starting position, the
    call returns the starting position alone, with probability 1, whatever the
    number of positions requested and whatever the explorer knows. *)
Theorem search_from_uncovered_start fuel games num_positions response_map :
  p_gtb (p_one : P) p_zero = true →
  Repertoire games false = Some (Ok response_map) →
  response_map !! fen starting_board = None →
  get_most_common_unknown_positions explorer (S (S fuel)) games false num_positions
    = Some (Ok ([ {| board := 0%nat; probability := p_one |} ], [starting_board])).
Proof.
  intros Hone Hindex Hstart.
  unfold get_most_common_unknown_positions, search. rewrite Hindex.
  unfold initial_locals, bind, Board_new, alloc, ret. simpl length. cbv beta iota zeta.
  set (initial_position := {| board := 0%nat; probability := p_one |}).
  assert (Hpop : pop_most_probable_node [initial_position] = Ok (initial_position, [])).
  { unfold pop_most_probable_node. simpl. by rewrite Hone. }
  cbn [while_leaf_positions leaf_positions app].
  rewrite (loop_body_unfold explorer response_map num_positions
             {| leaf_positions := [initial_position]; unknown_positions := [] |}
             [starting_board] initial_position [] Hpop).
  change (read [starting_board] (board initial_position)) with starting_board.
  rewrite Hstart. cbv zeta. simpl unknown_positions.
  by destruct (_ =? _).
Qed.
End UncoveredStart.

(** ** The sum of the probabilities *)

Section Mass.
Context {lib : Chess}.
Context (explorer : string → Response).
Implicit Types (node : PositionNode Qc) (h : heap) (st : locals Qc).

Lemma p_sum_app (l1 l2 : list Qc) : p_sum (l1 ++ l2) = (p_sum l1 + p_sum l2)%Qc.
Proof.
  induction l1 as [|x l1 IH]; simpl.
  - change (p_sum l2 = 0 + p_sum l2)%Qc. ring.
  - change (x + p_sum (l1 ++ l2) = x + p_sum l1 + p_sum l2)%Qc. rewrite IH. ring.
Qed.

Lemma p_sum_nonneg (l : list Qc) : Forall (λ x, (0 ≤ x)%Qc) l → (0 ≤ p_sum l)%Qc.
Proof.
  induction 1 as [|x l Hx _ IH]; [done|].
  change (0 ≤ x + p_sum l)%Qc. rewrite <-(Qcplus_0_l 0). by apply Qcplus_le_compat.
Qed.

Lemma relative_moves_sum (total : Z) (response_moves : list MoveStats) :
  p_sum ((relative_moves total response_moves).*2)
  = (Qc_of_Z (foldr Z.add 0%Z (move_games <$> response_moves)) / Qc_of_Z total)%Qc.
Proof.
  induction response_moves as [|move response_moves IH].
  - change (0 = Qc_of_Z 0 / Qc_of_Z total)%Qc. unfold Qcdiv.
    rewrite Z2Qc_inj_0. ring.
  - change (Qc_of_Z (move_games move) / Qc_of_Z total
            + p_sum ((relative_moves total response_moves).*2)
            = Qc_of_Z (move_games move + foldr Z.add 0%Z (move_games <$> response_moves))%Z
              / Qc_of_Z total)%Qc.
    rewrite IH, Z2Qc_inj_add. unfold Qcdiv. ring.
Qed.

Lemma foldr_add_nonneg (l : list Z) : Forall (λ x, 0 ≤ x) l → 0 ≤ foldr Z.add 0 l.
Proof. induction 1; simpl; lia. Qed.

Lemma foldr_add_elem (l : list Z) (x : Z) :
  Forall (λ x, 0 ≤ x) l → x ∈ l → x ≤ foldr Z.add 0 l.
Proof.
  induction 1 as [|y l Hy Hl IH]; [by intros ?%elem_of_nil|].
  pose proof (foldr_add_nonneg l Hl). simpl.
  intros [->|Hin%IH]%elem_of_cons; lia.
Qed.

Lemma Qcdiv_unit (a b : Z) : 0 ≤ a ≤ b → 0 < b → (0 ≤ Qc_of_Z a / Qc_of_Z b ∧ Qc_of_Z a / Qc_of_Z b ≤ 1)%Qc.
Proof.
  intros Ha Hb. apply in_unit_exact.
  change (in_unit (p_truediv (P := Qc) a b)). apply unit_truediv; lia.
Qed.

(** X15. The relative probabilities that the explorer's answer is turned into
    add up, in exact arithmetic, to the share of the position's games in which
    one of the listed moves was played; the moves keep their order. *)
Theorem relative_probabilities_add_up (board : loc) h :
  total_games (explorer (fen (read h board))) ≠ 0 →
  ∃ next_moves,
    get_most_common_moves_from_lichess explorer board h = Ok (next_moves, h) ∧
    next_moves.*1 = uci <$> moves (explorer (fen (read h board))) ∧
    p_sum (next_moves.*2)
    = (Qc_of_Z (listed_games (explorer (fen (read h board))))
       / Qc_of_Z (total_games (explorer (fen (read h board)))))%Qc.
Proof.
  intros Htotal.
  exists (relative_moves (total_games (explorer (fen (read h board))))
            (moves (explorer (fen (read h board))))).
  split_and!.
  - unfold get_most_common_moves_from_lichess, call_api, bind, Board_fen, ret, lift.
    rewrite moves_loop_spec. apply Z.eqb_neq in Htotal. rewrite Htotal.
    by destruct (moves _).
  - unfold relative_moves. by rewrite <-list_fmap_compose.
  - apply relative_moves_sum.
Qed.

Lemma candidates_add_up (b : Board) (next_moves : list (string * Qc)) :
  counts_add_up explorer → candidates explorer b = Ok next_moves →
  Forall (λ x, (0 ≤ x)%Qc) (next_moves.*2) ∧ (p_sum (next_moves.*2) ≤ 1)%Qc.
Proof.
  intros Hcontract. unfold candidates. rewrite moves_loop_spec.
  destruct (Hcontract (fen b)) as [Hnonneg Hlisted]. unfold listed_games in Hlisted.
  destruct (moves (explorer (fen b))) as [|move response_moves] eqn:Hmoves.
  { intros [= <-]. split; [constructor|done]. }
  destruct (total_games (explorer (fen b)) =? 0) eqn:Htotal; [done|].
  apply Z.eqb_neq in Htotal. intros Heq.
  assert (next_moves = relative_moves (total_games (explorer (fen b)))
                         (move :: response_moves)) as ->.
  { injection Heq as Heq. symmetry. exact Heq. }
  clear Heq.
  pose proof (foldr_add_nonneg (move_games <$> move :: response_moves)) as Hsum.
  specialize (Hsum ltac:(by apply Forall_fmap)).
  split.
  - unfold relative_moves.
    change (Forall (λ x : Qc, (0 ≤ x)%Qc)
              (((λ move, (uci move,
                            p_truediv (move_games move) (total_games (explorer (fen b)))))
                  <$> move :: response_moves).*2)).
    rewrite <-list_fmap_compose. apply Forall_fmap.
    apply Forall_forall. intros m Hin. simpl.
    pose proof (foldr_add_elem (move_games <$> move :: response_moves) (move_games m)
                  ltac:(by apply Forall_fmap) ltac:(by apply list_elem_of_fmap_2)).
    rewrite Forall_forall in Hnonneg. specialize (Hnonneg m Hin).
    apply Qcdiv_unit; lia.
  - rewrite relative_moves_sum. apply Qcdiv_unit; lia.
Qed.

Lemma p_sum_middle (before after : list Qc) (x : Qc) :
  p_sum (before ++ x :: after) = (p_sum (before ++ after) + x)%Qc.
Proof.
  rewrite !p_sum_app. change (p_sum (x :: after)) with (x + p_sum after)%Qc. ring.
Qed.

(** The children of a node have probabilities that are not negative and
    add up to no more than the probability of the node. *)
Lemma child_nodes_add_up node (b : Board) (first : loc) (next_moves : list (string * Qc)) :
  counts_add_up explorer → candidates explorer b = Ok next_moves →
  (0 ≤ probability node)%Qc →
  Forall (λ child, (0 ≤ probability child)%Qc) (child_nodes node first next_moves) ∧
  (p_sum (probability <$> child_nodes node first next_moves) ≤ probability node)%Qc.
Proof.
  intros Hcontract Hmoves Hnode.
  destruct (candidates_add_up _ _ Hcontract Hmoves) as [Hnonneg Hsum].
  split.
  - apply Forall_forall. intros child [i Hi]%list_elem_of_lookup.
    rewrite child_nodes_lookup in Hi.
    destruct (next_moves !! i) as [next_move|] eqn:Hmove; [|done].
    injection Hi as <-. simpl. apply Qcmult_nonneg_nonneg; [done|].
    rewrite Forall_forall in Hnonneg. apply Hnonneg.
    apply list_elem_of_fmap. exists next_move. split; [done|].
    by eapply list_elem_of_lookup_2.
  - rewrite child_nodes_probability.
    change ((λ next_move : string * Qc, p_mul (probability node) next_move.2) <$> next_moves)
      with ((Qcmult (probability node) ∘ snd) <$> next_moves).
    rewrite list_fmap_compose, p_sum_scale.
    rewrite <-(Qcmult_1_r (probability node)) at 2.
    rewrite !(Qcmult_comm (probability node)). by apply Qcmult_le_compat_r.
Qed.

(** In every state of a run, the probabilities of the nodes of the frontier
    and of the nodes reported add up to at most 1. *)
Lemma reaches_mass repertoire num_positions is_black c st h :
  counts_add_up explorer →
  reaches explorer repertoire num_positions is_black c st h →
  Forall (λ node, (0 ≤ probability node)%Qc) (leaf_positions st) ∧
  Forall (λ node, (0 ≤ probability node)%Qc) (unknown_positions st) ∧
  (p_sum (probability <$> leaf_positions st)
   + p_sum (probability <$> unknown_positions st) ≤ 1)%Qc.
Proof.
  intros Hcontract.
  induction 1 as [st h Hinit|c st h st' h' Hrun IH _ Hbody].
  - apply initial_locals_inv in Hinit. destruct is_black.
    + destruct Hinit as (? & (next_moves & boards & Hmoves & _ & -> & _) & ->). simpl.
      destruct (child_nodes_add_up {| board := 0%nat; probability := p_one |}
                  starting_board 1 next_moves Hcontract Hmoves) as [Hnonneg Hsum]; [done|].
      split_and!; [done|constructor|].
      change (p_sum []) with 0%Qc. by rewrite Qcplus_0_r.
    + destruct Hinit as [_ ->]. simpl. split_and!; [by apply Forall_singleton|constructor|done].
  - destruct IH as (IHleaf & IHfound & IHsum).
    destruct (reaches_step _ _ _ _ _ _ _ _ _ Hrun Hbody)
      as (before & node & after & Hleaf & _ & _ & _ & Hcases).
    rewrite Hleaf in IHleaf, IHsum. cbv zeta in Hcases.
    rewrite fmap_app, fmap_cons, p_sum_middle, p_sum_app in IHsum.
    assert (Hrest : Forall (λ node, (0 ≤ probability node)%Qc) (before ++ after)).
    { apply Forall_app in IHleaf as [? [_ ?]%Forall_cons_1]. by apply Forall_app. }
    assert (Hnode : (0 ≤ probability node)%Qc).
    { by apply Forall_app in IHleaf as [_ [? _]%Forall_cons_1]. }
    destruct (repertoire !! fen (read h (board node))) as [move|].
    + destruct Hcases as (next_moves & boards & Hmoves & _ & _ & -> & _). simpl.
      destruct (child_nodes_add_up node _ (length h) next_moves Hcontract Hmoves Hnode)
        as [Hnonneg Hsum].
      split_and!; [by apply Forall_app|done|].
      rewrite !fmap_app, !p_sum_app. etrans; [|exact IHsum].
      apply Qcplus_le_compat; [|done]. by apply Qcplus_le_compat.
    + destruct Hcases as (_ & -> & _). simpl.
      split_and!; [done|apply Forall_app; split; [done|by apply Forall_singleton]|].
      rewrite !fmap_app, !p_sum_app.
      change (p_sum (probability <$> [node])) with (probability node + 0)%Qc.
      etrans; [|exact IHsum].
      match goal with |- (?a ≤ ?b)%Qc => replace a with b; [apply Qcle_refl|ring] end.
Qed.

(** X5. In exact arithmetic, and with an explorer whose moves are parts of the
    games of their position, the probabilities of the nodes returned add up to
    at most 1. *)
Theorem reported_probabilities_at_most_one fuel games is_black num_positions found h :
  counts_add_up explorer →
  get_most_common_unknown_positions explorer fuel games is_black num_positions
    = Some (Ok (found, h)) →
  (p_sum (probability <$> found) ≤ 1)%Qc.
Proof.
  intros Hcontract (repertoire & st & _ & <- & Hrun)%get_most_common_unknown_positions_inv.
  assert (∃ c, reaches explorer repertoire num_positions is_black c st h) as [c Hreach].
  { destruct Hrun as [?|[? _]]; eauto. }
  destruct (reaches_mass _ _ _ _ _ _ Hcontract Hreach) as (Hleaf & _ & Hsum).
  etrans; [|exact Hsum].
  rewrite <-(Qcplus_0_l (p_sum (probability <$> unknown_positions st))) at 1.
  apply Qcplus_le_compat; [|done].
  apply p_sum_nonneg. by apply Forall_fmap.
Qed.
End Mass.

(** ** The errors of a call *)

Section Errors.
Context {P : Type} {arith : Arith P} {lib : Chess} (explorer : string → Response).
Implicit Types (node : PositionNode P) (h : heap) (st : locals P) (b : Board) (e : exn).
Local Abbreviation unusable_answer := (unusable_answer explorer).

(** The two ways in which the explorer's answer for [b] makes an expansion
    fail. *)
Lemma get_most_common_positions_raises node h e :
  (board node < length h)%nat →
  get_most_common_positions explorer node h = Raise e →
  (e = ZeroDivisionError ∧
   total_games (explorer (fen (read h (board node)))) = 0 ∧
   moves (explorer (fen (read h (board node)))) ≠ []) ∨
  (∃ move, e = IllegalMoveError (uci move) ∧
     move ∈ moves (explorer (fen (read h (board node)))) ∧
     parse_uci (read h (board node)) (uci move) = None).
Proof.
  intros Hvalid. rewrite get_most_common_positions_unfold. cbv zeta.
  rewrite moves_loop_spec.
  destruct (moves (explorer (fen (read h (board node))))) as [|move response_moves] eqn:Hmoves.
  { simpl. unfold ret. done. }
  destruct (_ =? 0) eqn:Htotal.
  { intros [= <-]. left. apply Z.eqb_eq in Htotal. done. }
  rewrite app_nil_l.
  destruct (positions_loop_cases node
              (relative_moves (total_games (explorer (fen (read h (board node)))))
                 (move :: response_moves)) [] h Hvalid)
    as [(boards & _ & ->)|(bad & Hin & Hbad & ->)]; [done|].
  intros [= <-]. right.
  apply list_elem_of_fmap in Hin as (move' & -> & Hin). by exists move'.
Qed.


Lemma unusable_answer_intro node h e :
  (board node < length h)%nat →
  get_most_common_positions explorer node h = Raise e → unusable_answer e.
Proof.
  intros Hvalid Hraise.
  destruct (get_most_common_positions_raises _ _ _ Hvalid Hraise)
    as [(-> & ? & ?)|(move & -> & ? & ?)]; [left|right]; eauto.
Qed.

Lemma loop_body_raises repertoire num_positions is_black st h e :
  reaches explorer repertoire num_positions is_black Continue st h →
  loop_body explorer repertoire num_positions st h = Raise e →
  (e = AssertionError ∧ Forall (λ node, ¬ positive node) (leaf_positions st)) ∨
  unusable_answer e.
Proof.
  intros Hrun Hbody.
  pose proof (reaches_separate _ _ _ _ _ _ _ Hrun) as [Hvalid _].
  pose proof (pop_most_probable_node_cases (leaf_positions st)) as Hpop.
  destruct (pop_most_probable_node (leaf_positions st)) as [[node rest]|e'] eqn:Hsel.
  - right. rewrite (loop_body_unfold _ _ _ _ _ _ _ Hsel) in Hbody.
    destruct Hpop as [_ (before & after & Hleaf & _)].
    destruct (repertoire !! fen (read h (board node))) as [move|]; [|done].
    destruct (get_most_common_positions _ _ _) as [[??]|e'] eqn:Hexp; [done|].
    injection Hbody as ->. eapply unusable_answer_intro; [|done].
    rewrite length_insert. rewrite Hleaf in Hvalid.
    by apply Forall_app in Hvalid as [_ [? _]%Forall_cons_1].
  - left. unfold loop_body, bind, lift in Hbody. rewrite Hsel in Hbody.
    injection Hbody as <-. done.
Qed.

Lemma while_leaf_positions_raises repertoire num_positions is_black fuel : ∀ st h e,
  reaches explorer repertoire num_positions is_black Continue st h →
  while_leaf_positions explorer fuel repertoire num_positions st h = Some (Raise e) →
  (e = AssertionError ∧
   ∃ st' h', reaches explorer repertoire num_positions is_black Continue st' h' ∧
     leaf_positions st' ≠ [] ∧ Forall (λ node, ¬ positive node) (leaf_positions st')) ∨
  unusable_answer e.
Proof.
  induction fuel as [|fuel IH]; intros st h e Hrun; [done|].
  simpl. destruct (leaf_positions st) as [|node leaf] eqn:Hleaf; [done|].
  destruct (loop_body explorer repertoire num_positions st h)
    as [[[[] st'] h']|e'] eqn:Hbody; [|done|].
  - apply IH. eapply reaches_iteration; [done| |done]. by rewrite Hleaf.
  - intros [= <-].
    destruct (loop_body_raises _ _ _ _ _ _ Hrun Hbody) as [[-> Hnone]|?]; [left|by right].
    split; [done|]. exists st, h. rewrite Hleaf in Hnone |- *. done.
Qed.

End Errors.

(** ** Requests for fewer positions *)

Section Requests.
Context {P : Type} {arith : Arith P} {lib : Chess} (explorer : string → Response).
Context (repertoire : gmap string Move).
Implicit Types (node : PositionNode P) (h : heap) (st : locals P).

(** The loop only adds to the list of the nodes reported, and leaves their
    boards as they are. *)
Lemma while_leaf_positions_keeps num_positions is_black fuel : ∀ st h st' h',
  reaches explorer repertoire num_positions is_black Continue st h →
  while_leaf_positions explorer fuel repertoire num_positions st h = Some (Ok (st', h')) →
  (∃ more, unknown_positions st' = unknown_positions st ++ more) ∧
  (∀ node, node ∈ unknown_positions st → read h' (board node) = read h (board node)).
Proof.
  induction fuel as [|fuel IH]; intros st h st' h' Hrun; [done|].
  simpl. destruct (leaf_positions st) as [|first leaf] eqn:Hleaf.
  { intros [= <- <-]. split; [|done]. exists []. by rewrite app_nil_r. }
  destruct (loop_body explorer repertoire num_positions st h)
    as [[[c st1] h1]|] eqn:Hbody; [|done].
  destruct (reaches_step _ _ _ _ _ _ _ _ _ Hrun Hbody)
    as (before & node & after & _ & _ & _ & Hframe & Hcases).
  cbv zeta in Hcases.
  assert (Hstep : (∃ more, unknown_positions st1 = unknown_positions st ++ more) ∧
                  (∀ other, other ∈ unknown_positions st →
                     read h1 (board other) = read h (board other))).
  { split.
    - destruct (repertoire !! fen (read h (board node))).
      + destruct Hcases as (? & ? & _ & _ & _ & -> & _). exists []. simpl.
        by rewrite app_nil_r.
      + destruct Hcases as (_ & -> & _). by exists [node].
    - intros other Hin. apply Hframe. rewrite !elem_of_app. tauto. }
  destruct Hstep as [[more1 Hmore1] Hkeep1].
  assert (Hrun1 : reaches explorer repertoire num_positions is_black c st1 h1).
  { eapply reaches_iteration; [done| |done]. by rewrite Hleaf. }
  destruct c.
  - intros Hloop. destruct (IH _ _ _ _ Hrun1 Hloop) as [[more Hmore] Hkeep].
    split.
    + exists (more1 ++ more). by rewrite Hmore, Hmore1, app_assoc.
    + intros other Hin. rewrite Hkeep, Hkeep1; [done..|].
      rewrite Hmore1, elem_of_app. by left.
  - intros [= <- <-]. split; [by exists more1|done].
Qed.

Lemma while_leaf_positions_prefix num_positions num_positions' is_black fuel :
  ∀ st h st' h',
  reaches explorer repertoire num_positions' is_black Continue st h →
  Z.of_nat (length (unknown_positions st)) < num_positions →
  while_leaf_positions explorer fuel repertoire num_positions' st h = Some (Ok (st', h')) →
  num_positions ≤ Z.of_nat (length (unknown_positions st')) →
  ∃ st'' h'',
    while_leaf_positions explorer fuel repertoire num_positions st h
      = Some (Ok (st'', h'')) ∧
    unknown_positions st'' = take (Z.to_nat num_positions) (unknown_positions st') ∧
    (∀ node, node ∈ unknown_positions st'' →
       read h'' (board node) = read h' (board node)).
Proof.
  induction fuel as [|fuel IH]; intros st h st' h' Hrun Hfew; [done|].
  simpl. destruct (leaf_positions st) as [|first leaf] eqn:Hleaf.
  { intros [= <- <-] ?. lia. }
  destruct (loop_body explorer repertoire num_positions' st h)
    as [[[c st1] h1]|] eqn:Hbody; [|done].
  destruct (reaches_step _ _ _ _ _ _ _ _ _ Hrun Hbody)
    as (before & node & after & _ & Hpop & _ & _ & Hcases).
  assert (Hrun1 : reaches explorer repertoire num_positions' is_black c st1 h1).
  { eapply reaches_iteration; [done| |done]. by rewrite Hleaf. }
  rewrite (loop_body_unfold _ _ num_positions _ _ _ _ Hpop).
  rewrite (loop_body_unfold _ _ num_positions' _ _ _ _ Hpop) in Hbody.
  cbv zeta in Hcases, Hbody |- *.
  destruct (repertoire !! fen (read h (board node))) as [move|].
  - destruct (get_most_common_positions _ _ _) as [[next_positions h2]|]; [|done].
    injection Hbody as <- <- <-. intros Hloop Hmany.
    apply IH; done.
  - injection Hbody as <- <- <-.
    destruct (Z.of_nat (length (unknown_positions st ++ [node])) =? num_positions) eqn:Hk.
    + apply Z.eqb_eq in Hk. intros Hloop _.
      eexists _, _. split; [done|]. simpl.
      assert (∃ more, unknown_positions st' = (unknown_positions st ++ [node]) ++ more ∧
                ∀ other, other ∈ unknown_positions st ++ [node] →
                  read h' (board other) = read h (board other)) as (more & -> & Hkeep).
      { destruct (_ =? num_positions').
        - injection Hloop as <- <-. exists []. by rewrite app_nil_r.
        - destruct (while_leaf_positions_keeps _ _ _ _ _ _ _ Hrun1 Hloop)
            as [[more Hmore] Hkeep]. by exists more. }
      split.
      * rewrite take_app_length'; [done|]. lia.
      * intros other Hin. by rewrite Hkeep.
    + apply Z.eqb_neq in Hk. rewrite length_app in Hk. simpl in Hk.
      destruct (_ =? num_positions') eqn:Hk'.
      * intros [= <- <-]. simpl. rewrite length_app. simpl. lia.
      * intros Hloop Hmany. apply IH; [done| |done..].
        simpl. rewrite length_app. simpl. lia.
Qed.
End Requests.

Section Shorter.
Context {P : Type} {arith : Arith P} {lib : Chess} (explorer : string → Response).

(** X7. A request for fewer positions gets the first nodes of the longer list:
    when a call returns a list of at least [num_positions] nodes, the call for
    [num_positions] positions returns the first [num_positions] of them, on
    the same boards. *)
Theorem shorter_request_is_a_prefix fuel (games : list GameNode) is_black
    num_positions num_positions' (found' : list (PositionNode P)) h' :
  get_most_common_unknown_positions explorer fuel games is_black num_positions'
    = Some (Ok (found', h')) →
  1 ≤ num_positions ≤ Z.of_nat (length found') →
  ∃ h,
    get_most_common_unknown_positions explorer fuel games is_black num_positions
      = Some (Ok (take (Z.to_nat num_positions) found', h)) ∧
    Forall (λ node, read h (board node) = read h' (board node))
      (take (Z.to_nat num_positions) found').
Proof.
  unfold get_most_common_unknown_positions, search.
  destruct (Repertoire games is_black) as [[repertoire|?]|]; [|done..].
  destruct (initial_locals explorer is_black []) as [[st0 h0]|] eqn:Hinit; [|done].
  destruct (while_leaf_positions explorer fuel repertoire num_positions' st0 h0)
    as [[[st' h'']|?]|] eqn:Hloop; try done.
  intros [= <- <-] Hk.
  destruct (while_leaf_positions_prefix explorer repertoire num_positions num_positions'
              is_black fuel st0 h0 st' h'') as (st'' & h & -> & Hfound & Hkeep); try done.
  - by apply reaches_initial.
  - apply initial_locals_inv in Hinit.
    destruct is_black; [destruct Hinit as (? & _ & ->)|destruct Hinit as [_ ->]]; simpl; lia.
  - lia.
  - exists h. rewrite <-Hfound. split; [done|]. by apply Forall_forall.
Qed.
End Shorter.

(** ** Probabilities above 0 *)

Lemma SFltb_trans a b c : SFltb a b = true → SFltb b c = true → SFltb a c = true.
Proof.
  unfold SFltb, SFcompare.
  destruct a as [[]|[]| |[] ma ea], b as [[]|[]| |[] mb eb], c as [[]|[]| |[] mc ec];
    simpl; try done; sf_cases; try done; subst; lia.
Qed.

#[export] Instance binary64_transitive : Transitive_gtb float.
Proof.
  intros a b c. cbn. rewrite !FloatAxioms.ltb_spec. intros Hab Hbc.
  by apply (SFltb_trans _ (Prim2SF b)).
Qed.

#[export] Instance exact_transitive : Transitive_gtb Qc.
Proof.
  intros a b c. cbn. rewrite !bool_decide_eq_true. intros Hab Hbc. by etrans.
Qed.

Section Positive.
Context {P : Type} {arith : Arith P} {trans : Transitive_gtb P} {lib : Chess}.
Implicit Types (node : PositionNode P) (h : heap) (st : locals P).

(** The running maximum of the scan is the probability of the node at the
    index kept with it, and is above 0. *)
Lemma scan_positive (rest : list (PositionNode P)) : ∀ seen max_idx max_probability,
  match max_idx with
  | None => max_probability = p_zero
  | Some i => ∃ node, (seen ++ rest) !! i = Some node ∧
                probability node = max_probability ∧ positive node
  end →
  match (scan (length seen) rest max_idx max_probability).1 with
  | None => True
  | Some i => ∃ node, (seen ++ rest) !! i = Some node ∧ positive node
  end.
Proof using trans.
  induction rest as [|node rest IH]; intros seen max_idx max_probability Hinv.
  - simpl. destruct max_idx as [i|]; [|done].
    destruct Hinv as (node & ? & _ & ?). by exists node.
  - rewrite (cons_middle node seen rest), app_assoc in Hinv |- *.
    simpl. replace (S (length seen)) with (length (seen ++ [node]))
      by (rewrite length_app; simpl; lia).
    destruct (p_gtb (probability node) max_probability) eqn:Hgt; apply IH; [|done].
    exists node. split_and!; [|done|].
    + rewrite lookup_app_l by (rewrite length_app; simpl; lia).
      by rewrite list_lookup_middle.
    + destruct max_idx as [i|].
      * destruct Hinv as (node0 & _ & <- & Hpos). by eapply gtb_trans.
      * by rewrite Hinv in Hgt.
Qed.

(** The node selected has a probability above 0. *)
Lemma pop_most_probable_node_positive (leaf : list (PositionNode P)) node rest :
  pop_most_probable_node leaf = Ok (node, rest) → positive node.
Proof using trans.
  unfold pop_most_probable_node.
  pose proof (scan_positive leaf [] None p_zero eq_refl) as Hscan. simpl in Hscan.
  destruct (scan 0 leaf None p_zero).1 as [i|]; [|done].
  destruct Hscan as (node' & -> & Hpos). by intros [= <- _].
Qed.

Lemma reaches_reported_positive explorer repertoire num_positions is_black c st h :
  reaches explorer repertoire num_positions is_black c st h →
  Forall positive (unknown_positions st).
Proof using trans.
  induction 1 as [st h Hinit|c st h st' h' Hrun IH _ Hbody].
  - apply initial_locals_inv in Hinit.
    destruct is_black; [destruct Hinit as (? & _ & ->)|destruct Hinit as [_ ->]];
      constructor.
  - destruct (reaches_step _ _ _ _ _ _ _ _ _ Hrun Hbody)
      as (before & node & after & _ & Hpop & _ & _ & Hcases).
    cbv zeta in Hcases.
    destruct (repertoire !! fen (read h (board node))).
    + by destruct Hcases as (? & ? & _ & _ & _ & -> & _).
    + destruct Hcases as (_ & -> & _). simpl. apply Forall_app. split; [done|].
      apply Forall_singleton. by eapply pop_most_probable_node_positive.
Qed.

(** X6. Every node of the list returned has a probability above 0, on binary64
    as in exact arithmetic: a node of probability 0, or one whose probability
    is not a number, is never reported. *)
Theorem reported_probabilities_positive (explorer : string → Response) fuel games is_black
    num_positions (found : list (PositionNode P)) h :
  get_most_common_unknown_positions explorer fuel games is_black num_positions
    = Some (Ok (found, h)) →
  Forall positive found.
Proof using trans.
  intros (repertoire & st & _ & <- & Hrun)%get_most_common_unknown_positions_inv.
  assert (∃ c, reaches explorer repertoire num_positions is_black c st h) as [c Hreach].
  { destruct Hrun as [?|[? _]]; eauto. }
  by eapply reaches_reported_positive.
Qed.
End Positive.

(** ** The pause between two calls of the explorer *)

Lemma all_from_spec f n : ∀ d k,
  all_from f d n = true → d ≤ k < d + Z.of_nat n → f k = true.
Proof.
  induction n as [|n IH]; intros d k Hall Hk; [lia|].
  simpl in Hall. apply andb_prop in Hall as [Hd Hall].
  destruct (decide (k = d)) as [->|Hne]; [done|].
  apply (IH (d + 1)); [done|lia].
Qed.

Lemma pause_fits_all : all_from pause_fits 0 (Z.to_nat 500000) = true.
Proof. vm_compute. reflexivity. Qed.

Lemma SFleb_not_ltb a b : SFleb a b = true → SFltb b a = false.
Proof.
  unfold SFleb, SFltb, SFcompare.
  destruct a as [[]|[]| |[] ma ea], b as [[]|[]| |[] mb eb]; simpl; try done;
    sf_cases; try done; subst; lia.
Qed.

(** The order of [float]s that are not NaN, in terms of [<]. *)
Lemma float_le_trans (a b c : float) :
  PrimFloat.eqb b b = true →
  PrimFloat.ltb b a = false → PrimFloat.ltb c b = false → PrimFloat.ltb c a = false.
Proof. exact (gtb_negtrans (P := float) a b c). Qed.

Lemma float_lt_irrefl (a : float) : PrimFloat.ltb a a = false.
Proof.
  destruct (PrimFloat.ltb a a) eqn:Hlt; [|done].
  rewrite <-Hlt. exact (gtb_asym (P := float) a a Hlt).
Qed.

Section Pause.
Implicit Types (d : Z).

Lemma pause_fits_below d : 0 ≤ d < 500000 → pause_fits d = true.
Proof.
  intros Hd. apply (all_from_spec pause_fits (Z.to_nat 500000) 0 d pause_fits_all).
  rewrite Z2Nat.id; lia.
Qed.

Lemma total_seconds_comparable d :
  0 ≤ d < 500000 → PrimFloat.eqb (total_seconds d) (total_seconds d) = true.
Proof.
  intros Hfits%pause_fits_below. unfold pause_fits in Hfits. cbv zeta in Hfits.
  by apply andb_prop in Hfits as [[_ ?]%andb_prop _].
Qed.

(** The seconds of a [timedelta] below half a second grow with its
    microseconds. *)
Lemma total_seconds_mono (n : nat) : ∀ d,
  0 ≤ d → d + Z.of_nat n < 500000 →
  PrimFloat.ltb (total_seconds (d + Z.of_nat n)) (total_seconds d) = false.
Proof.
  induction n as [|n IH]; intros d Hd Hn.
  - rewrite Z.add_0_r. apply float_lt_irrefl.
  - replace (d + Z.of_nat (S n)) with (d + Z.of_nat n + 1) by lia.
    apply (float_le_trans _ (total_seconds (d + Z.of_nat n))).
    + apply total_seconds_comparable. lia.
    + apply IH; lia.
    + pose proof (pause_fits_below (d + Z.of_nat n) ltac:(lia)) as Hfits.
      unfold pause_fits in Hfits. cbv zeta in Hfits.
      apply andb_prop in Hfits as [_ Hstep]. by apply negb_true_iff in Hstep.
Qed.
End Pause.

(** X17. When the clock does not go back and two readings around a pause are
    at least the pause apart, the call leaves a last call time that is half a
    second or more after the one before. The pause asked for is between 0
    and half a second. *)
Theorem delay_call_spacing (last now after : Z) :
  last ≤ now → now ≤ after →
  (∀ pause, (delay_call {| last_call_time := Some last |} now after).1 = Some pause →
     PrimFloat.leb pause (total_seconds (after - now)) = true) →
  (∀ pause, (delay_call {| last_call_time := Some last |} now after).1 = Some pause →
     PrimFloat.leb 0%float pause = true ∧ PrimFloat.leb pause 0.5%float = true) ∧
  last_call_time (delay_call {| last_call_time := Some last |} now after).2 = Some after ∧
  500000 ≤ after - last.
Proof.
  intros Hlast Hafter. unfold delay_call. simpl.
  destruct (now - last <? 500000) eqn:Hsince; simpl.
  2: { intros _. apply Z.ltb_ge in Hsince. split_and!; [done|done|lia]. }
  apply Z.ltb_lt in Hsince. intros Hslept.
  specialize (Hslept _ eq_refl).
  pose proof (pause_fits_below (now - last) ltac:(lia)) as Hfits.
  unfold pause_fits in Hfits. cbv zeta in Hfits.
  apply andb_prop in Hfits as [[[[Hlow Hhigh]%andb_prop Hlong]%andb_prop _]%andb_prop _].
  split_and!; [by intros ? [= <-]|done|].
  destruct (decide (500000 ≤ after - last)) as [|Hshort]; [done|]. exfalso.
  set (d := now - last) in *. set (elapsed := after - now) in *.
  assert (Hmono : PrimFloat.ltb (total_seconds (499999 - d)) (total_seconds elapsed) = false).
  { replace (499999 - d) with (elapsed + Z.of_nat (Z.to_nat (499999 - d - elapsed)))
      by (rewrite Z2Nat.id; lia).
    apply total_seconds_mono; [lia|]. rewrite Z2Nat.id; lia. }
  rewrite FloatAxioms.leb_spec in Hslept. apply SFleb_not_ltb in Hslept.
  rewrite <-FloatAxioms.ltb_spec in Hslept.
  rewrite (float_le_trans _ (total_seconds elapsed)) in Hlong; [done| |done|done].
  apply total_seconds_comparable. lia.
Qed.

(** ** A frontier without a node to select *)

Section Barren.
Context {P : Type} {arith : Arith P} {lib : Chess} (explorer : string → Response).
Context (repertoire : gmap string Move) (num_positions : Z).
Implicit Types (node : PositionNode P) (h : heap) (st : locals P) (c : control).

(** A state at the loop test is one that the loop comes to from the lists
    it starts with. *)
Lemma reaches_run is_black c st h :
  reaches explorer repertoire num_positions is_black c st h → c = Continue →
  ∃ st0 h0 (n : nat),
    initial_locals explorer is_black [] = Ok (st0, h0) ∧
    ∀ fuel, while_leaf_positions explorer (n + fuel) repertoire num_positions st0 h0
            = while_leaf_positions explorer fuel repertoire num_positions st h.
Proof.
  induction 1 as [st h Hinit|c st h st' h' Hrun IH Hleaf Hbody]; intros Hc.
  - exists st, h, 0%nat. done.
  - subst c. destruct (IH eq_refl) as (st0 & h0 & n & Hinit & Hloop).
    exists st0, h0, (S n). split; [done|]. intros fuel.
    replace (S n + fuel)%nat with (n + S fuel)%nat by lia.
    rewrite Hloop. simpl. rewrite Hbody.
    by destruct (leaf_positions st).
Qed.

(** X18. When a run comes to the loop test with a frontier that is not empty and
    has no node of probability above 0, the call ends with the error of the
    assertion. *)
Theorem assertion_fails_at_barren_frontier games is_black st h :
  Repertoire games is_black = Some (Ok repertoire) →
  reaches explorer repertoire num_positions is_black Continue st h →
  leaf_positions st ≠ [] →
  Forall (λ node, ¬ positive node) (leaf_positions st) →
  ∃ fuel,
    get_most_common_unknown_positions explorer fuel games is_black num_positions
      = Some (Raise AssertionError).
Proof.
  intros Hindex Hrun Hleaf Hnone.
  destruct (reaches_run _ _ _ _ Hrun eq_refl) as (st0 & h0 & n & Hinit & Hloop).
  exists (n + 1)%nat.
  unfold get_most_common_unknown_positions, search.
  rewrite Hindex, Hinit, Hloop. simpl.
  destruct (leaf_positions st) as [|first leaf] eqn:Hlist; [done|].
  pose proof (pop_most_probable_node_cases (leaf_positions st)) as Hpop.
  unfold loop_body, bind, lift.
  destruct (pop_most_probable_node (leaf_positions st)) as [[node rest]|e].
  - destruct Hpop as [(node' & Hin & Hpos)%Exists_exists _].
    rewrite Hlist in Hin. rewrite Forall_forall in Hnone. by destruct (Hnone node' Hin).
  - by destruct Hpop as [-> _].
Qed.
End Barren.

(** ** An explorer without a move for the start *)

Section NoFirstMove.
Context {P : Type} {arith : Arith P} {lib : Chess} (explorer : string → Response).

(** X19. For Black, when the explorer lists no move for the starting position,
    the call returns the empty list, whatever the repertoire and the number of
    positions requested. *)
Theorem search_without_first_moves fuel games num_positions response_map :
  Repertoire games true = Some (Ok response_map) →
  moves (explorer (fen starting_board)) = [] →
  get_most_common_unknown_positions (P := P) explorer (S fuel) games true num_positions
    = Some (Ok ([], [starting_board])).
Proof.
  intros Hindex Hmoves.
  assert (Hexp : get_most_common_positions (P := P) explorer
                   {| board := 0%nat; probability := p_one |} [starting_board]
                 = Ok ([], [starting_board])).
  { rewrite get_most_common_positions_unfold. cbv zeta.
    change (read [starting_board] _) with starting_board. by rewrite Hmoves. }
  unfold get_most_common_unknown_positions, search. rewrite Hindex.
  unfold initial_locals, bind, Board_new, alloc, ret. simpl length. simpl app.
  by rewrite Hexp.
Qed.
End NoFirstMove.

(** ** Examples of the further properties *)

Lemma toy_plies_start : plies (fen (starting_board (Chess := Toy.chess))) = 0%nat.
Proof. reflexivity. Qed.


Lemma reported_positions_side_to_move_witness :
  Forall (λ node : PositionNode Qc,
            Nat.odd (plies (fen (read Runs.final_boards (board node)))) = false)
    [Runs.after_nf6; Runs.after_e6].
Proof.
  apply (reported_positions_side_to_move (lib := Toy.chess) toy_plies_start
           Examples.openings 10 Runs.queens_gambit_games false 2).
  vm_compute. reflexivity.
Defined.


Lemma get_most_common_positions_rejected_move_witness :
  get_most_common_positions Runs.garbled Examples.start [[]]
    = Raise (IllegalMoveError "").
Proof.
  apply (get_most_common_positions_rejected_move (lib := Toy.chess) Runs.garbled
           Examples.start [[]] [Toy.stats "e2e4" 5] (Toy.stats "" 3) [Toy.stats "d2d4" 2]).
  - simpl. lia.
  - reflexivity.
  - unfold total_games. simpl. lia.
  - apply Forall_singleton. by eexists.
  - reflexivity.
Defined.

Lemma search_from_uncovered_start_witness :
  get_most_common_unknown_positions (P := float) Examples.openings 2 [] false 3
    = Some (Ok ([ {| board := 0%nat; probability := p_one |} ],
                [starting_board (Chess := Toy.chess)])).
Proof.
  apply (search_from_uncovered_start (lib := Toy.chess) Examples.openings 0 [] 3 ∅).
  - reflexivity.
  - reflexivity.
  - reflexivity.
Defined.

Lemma relative_probabilities_add_up_witness :
  ∃ next_moves,
    get_most_common_moves_from_lichess Examples.openings 0%nat [[]] = Ok (next_moves, [[]]) ∧
    next_moves.*1 = uci <$> moves (Examples.openings (fen (read [[]] 0%nat))) ∧
    p_sum (next_moves.*2)
    = (Qc_of_Z (listed_games (Examples.openings (fen (read [[]] 0%nat))))
       / Qc_of_Z (total_games (Examples.openings (fen (read [[]] 0%nat)))))%Qc.
Proof.
  apply (relative_probabilities_add_up (lib := Toy.chess) Examples.openings 0%nat [[]]).
  unfold total_games. simpl. lia.
Defined.

Lemma openings_counts_add_up : counts_add_up Examples.openings.
Proof.
  intros position. unfold Examples.openings, listed_games.
  repeat case_decide; simpl; (split; [|unfold move_games, total_games; simpl; lia]);
    repeat (apply Forall_cons_2; [unfold move_games; simpl; lia|]);
    apply Forall_nil_2.
Qed.

Lemma reported_probabilities_at_most_one_witness :
  (p_sum (probability <$> [Runs.after_nf6; Runs.after_e6]) ≤ 1)%Qc.
Proof.
  apply (reported_probabilities_at_most_one (lib := Toy.chess) Examples.openings 10
           Runs.queens_gambit_games false 2
           [Runs.after_nf6; Runs.after_e6] Runs.final_boards).
  - apply openings_counts_add_up.
  - vm_compute. reflexivity.
Defined.


Lemma shorter_request_is_a_prefix_witness :
  ∃ h,
    get_most_common_unknown_positions Examples.openings 10 Runs.queens_gambit_games
      false 1
      = Some (Ok (take (Z.to_nat 1) Runs.first_two, h)) ∧
    Forall (λ node, read h (board node) = read Runs.final_boards (board node))
      (take (Z.to_nat 1) Runs.first_two).
Proof.
  apply (shorter_request_is_a_prefix (lib := Toy.chess) Examples.openings 10
           Runs.queens_gambit_games false 1 2).
  - vm_compute. reflexivity.
  - simpl. lia.
Defined.

Lemma delay_call_spacing_witness :
  (∀ pause, (delay_call {| last_call_time := Some 0 |} 200000 500000).1 = Some pause →
     PrimFloat.leb 0%float pause = true ∧ PrimFloat.leb pause 0.5%float = true) ∧
  last_call_time (delay_call {| last_call_time := Some 0 |} 200000 500000).2 = Some 500000 ∧
  500000 ≤ 500000 - 0.
Proof.
  apply (delay_call_spacing 0 200000 500000); [lia|lia|].
  intros pause [= <-]. vm_compute. reflexivity.
Defined.

Lemma reported_probabilities_positive_witness : Forall positive Runs.first_two.
Proof.
  apply (reported_probabilities_positive (lib := Toy.chess) Examples.openings 10
           Runs.queens_gambit_games false 2 Runs.first_two Runs.final_boards).
  vm_compute. reflexivity.
Defined.

Lemma assertion_fails_at_barren_frontier_witness :
  ∃ fuel,
    get_most_common_unknown_positions (P := float) Examples.unplayed_move fuel [] true 2
      = Some (Raise AssertionError).
Proof.
  apply (assertion_fails_at_barren_frontier (lib := Toy.chess) Examples.unplayed_move ∅ 2
           [] true
           {| leaf_positions := [ {| board := 2%nat; probability := 0%float |} ];
              unknown_positions := [ {| board := 1%nat; probability := 1%float |} ] |}
           [ []; ["e2e4"]; ["a2a3"] ]).
  - reflexivity.
  - eapply reaches_iteration.
    + apply reaches_initial. vm_compute. reflexivity.
    + done.
    + vm_compute. reflexivity.
  - done.
  - apply Forall_singleton. by vm_compute.
Defined.

Lemma search_without_first_moves_witness :
  get_most_common_unknown_positions (P := float) (λ _, Toy.no_data) 1 [] true 3
    = Some (Ok ([], [[]])).
Proof.
  apply (search_without_first_moves (lib := Toy.chess) (λ _, Toy.no_data) 0 [] 3 ∅).
  - reflexivity.
  - reflexivity.
Defined.
